(** * A shallow embedding of the DNS server's hot data plane

    The development follows [dns_server.h] and the server's translation
    unit: the wire codec ([parse_domain_name], [encode_domain_name],
    [parse_dns_question], [build_error_response], [build_dns_response]),
    the pre-compiled response table, the sharded TTL + LRU cache
    ([FastDNSCache] and its [Shard]), the query dispatcher
    ([handle_query]) and the statistics snapshot
    ([get_performance_stats]).

    Conventions.
    - An octet ([uint8_t], [char]) is an [ascii]; [u8] gives its value.
    - A [std::string] is a [string]; a [std::vector<uint8_t>] and the
      memory behind a [const uint8_t*] are [list ascii].
    - [size_t] and [uint64_t] values are integers in [Z] and every
      arithmetic operation on them is written with its wrap-around
      ([wrap64]); [uint16_t] likewise with [wrap16].
    - [steady_clock] instants are integers (nanosecond ticks); every read
      of the clock is an explicit argument of the operation reading it.
    - A [while] loop that may not terminate is iterated with fuel. *)

From Stdlib Require Import ZArith List Ascii String Lia Bool.
From Stdlib Require Import Floats.SpecFloat.
From stdpp Require Import gmap strings list fin_maps pretty.

Local Open Scope Z_scope.

(* ================================================================== *)
(** * Part I: the program                                              *)
(* ================================================================== *)

(** ** Machine integers and octets *)

Definition wrap64 (z : Z) : Z := z mod 2 ^ 64.
Definition wrap16 (z : Z) : Z := z mod 2 ^ 16.

Definition u8 (c : ascii) : Z := Z.of_N (N_of_ascii c).
Definition octet (z : Z) : ascii := ascii_of_N (Z.to_N (z mod 256)).

(** What the code takes from its platform: the byte order of the host
    (for [reinterpret_cast<uint16_t*>], [htons], [ntohs], [htonl]), the
    implementation-defined [std::hash<string>], and the two C library
    calls [getaddrinfo] (behind [resolve_upstream]) and [inet_aton]. *)
Class Host := {
  host_big_endian : bool;
  hash_string : string -> Z;
  getaddrinfo_ipv4 : string -> option string;
  inet_aton : string -> option (list ascii)
}.

Section ByteOrder.
Context `{Host}.

(** [ptr[i]] through a [const uint16_t*]: two octets in host order. *)
Definition load_u16 (b0 b1 : ascii) : Z :=
  if host_big_endian then u8 b0 * 256 + u8 b1 else u8 b1 * 256 + u8 b0.

(** The two octets a [uint16_t] occupies in memory. *)
Definition store_u16 (v : Z) : list ascii :=
  if host_big_endian then [octet (v / 256); octet v]
  else [octet v; octet (v / 256)].

Definition bswap16 (v : Z) : Z := (v mod 256) * 256 + (v / 256) mod 256.

Definition ntohs (v : Z) : Z := if host_big_endian then wrap16 v else bswap16 v.
Definition htons (v : Z) : Z := if host_big_endian then wrap16 v else bswap16 v.

(** [htonl(v)] followed by the copy of its four octets: network order. *)
Definition store_htonl (v : Z) : list ascii :=
  [octet (v / 16777216); octet (v / 65536); octet (v / 256); octet v].
End ByteOrder.

(** ** Wire codec: the domain-name decoder *)

(** [data[i]]: [None] is a dereference outside the object [data] points
    into, which is undefined behaviour. *)
Definition read (data : list ascii) (i : Z) : option ascii :=
  if i <? 0 then None else data !! Z.to_nat i.

(** The octets [data[i] .. data[i+n-1]] read by [std::string::append]. *)
Definition read_range (data : list ascii) (i n : Z) : option (list ascii) :=
  let l := take (Z.to_nat n) (drop (Z.to_nat i) data) in
  if (i <? 0) || negb (Z.of_nat (length l) =? n) then None else Some l.

(** The local variables of [parse_domain_name]; [ps_offset] is the
    reference parameter [offset].  [ps_reads] is a ghost log of the
    indices at which [data] has been dereferenced so far, most recent
    first; an index is logged when the dereference is evaluated, whether
    or not it falls inside the object. *)
Record pstate := {
  ps_result : string;
  ps_jumped : bool;
  ps_original_offset : Z;
  ps_offset : Z;
  ps_reads : list Z
}.

Definition set_offset (o : Z) (s : pstate) : pstate :=
  {| ps_result := ps_result s; ps_jumped := ps_jumped s;
     ps_original_offset := ps_original_offset s; ps_offset := o;
     ps_reads := ps_reads s |}.

Definition set_result (r : string) (s : pstate) : pstate :=
  {| ps_result := r; ps_jumped := ps_jumped s;
     ps_original_offset := ps_original_offset s; ps_offset := ps_offset s;
     ps_reads := ps_reads s |}.

Definition log_reads (idx : list Z) (s : pstate) : pstate :=
  {| ps_result := ps_result s; ps_jumped := ps_jumped s;
     ps_original_offset := ps_original_offset s; ps_offset := ps_offset s;
     ps_reads := rev idx ++ ps_reads s |}.

(** [if (!jumped) { original_offset = offset + 2; jumped = true; }] *)
Definition mark_jump (s : pstate) : pstate :=
  if ps_jumped s then s
  else {| ps_result := ps_result s; ps_jumped := true;
          ps_original_offset := wrap64 (ps_offset s + 2);
          ps_offset := ps_offset s; ps_reads := ps_reads s |}.

(** How the function returned: by leaving the loop and falling through to
    [return result], or by the [return ""] inside the loop. *)
Inductive exit_kind := LoopExit | InvalidReturn.

Inductive step_result :=
| Next (s : pstate)
| Done (k : exit_kind) (name : string) (s : pstate)
| Fault (s : pstate).

(** The code after the loop: [if (jumped) offset = original_offset;
    return result;] *)
Definition leave_loop (s : pstate) : step_result :=
  Done LoopExit (ps_result s)
       (if ps_jumped s then set_offset (ps_original_offset s) s else s).

Definition is_pointer (label_len : Z) : bool := Z.land label_len 192 =? 192.

(** One evaluation of the loop condition and, when it holds, of the body. *)
Definition parse_step (data : list ascii) (len : Z) (s : pstate) : step_result :=
  let offset := ps_offset s in
  if offset <? len then
    let s := log_reads [offset] s in
    match read data offset with
    | None => Fault s
    | Some c =>
      let label_len := u8 c in
      if label_len =? 0 then
        leave_loop (set_offset (wrap64 (offset + 1)) s)
      else if is_pointer label_len then
        let s := log_reads [wrap64 (offset + 1)] (mark_jump s) in
        match read data (wrap64 (offset + 1)) with
        | None => Fault s
        | Some c1 =>
          Next (set_offset (Z.lor (Z.shiftl (Z.land label_len 63) 8) (u8 c1)) s)
        end
      else if wrap64 (wrap64 (offset + 1) + label_len) >? len then
        Done InvalidReturn EmptyString s
      else
        let r := if String.eqb (ps_result s) EmptyString then ps_result s
                 else (ps_result s +:+ ".")%string in
        let s := log_reads (map (fun k => wrap64 (offset + 1) + Z.of_nat k)
                                (seq 0 (Z.to_nat label_len))) s in
        match read_range data (wrap64 (offset + 1)) label_len with
        | None => Fault s
        | Some bytes =>
          Next (set_offset (wrap64 (wrap64 (offset + 1) + label_len))
                  (set_result (r +:+ string_of_list_ascii bytes) s))
        end
    end
  else leave_loop s.

Inductive run_result :=
| Returned (k : exit_kind) (name : string) (s : pstate)
| Faulted (s : pstate)
| OutOfFuel (s : pstate).

Fixpoint parse_loop (fuel : nat) (data : list ascii) (len : Z) (s : pstate)
  : run_result :=
  match fuel with
  | O => OutOfFuel s
  | S fuel' =>
    match parse_step data len s with
    | Next s' => parse_loop fuel' data len s'
    | Done k name s' => Returned k name s'
    | Fault s' => Faulted s'
    end
  end.

Definition parse_init (offset : Z) : pstate :=
  {| ps_result := EmptyString; ps_jumped := false;
     ps_original_offset := offset; ps_offset := offset; ps_reads := [] |}.

Definition parse_domain_name (fuel : nat) (data : list ascii) (len offset : Z)
  : run_result :=
  parse_loop fuel data len (parse_init offset).

(** ** Wire codec: header, question, encoders *)

(** What a call can do besides returning a value: dereference outside the
    buffer (undefined behaviour) or still be looping when the fuel is
    spent. *)
Inductive outcome (A : Type) :=
| Value (a : A)
| Undefined
| NoFuel.
Arguments Value {A} a.
Arguments Undefined {A}.
Arguments NoFuel {A}.

Record DNSHeader := {
  id : Z; flags : Z; qdcount : Z; ancount : Z; nscount : Z; arcount : Z
}.

Record DNSQuestion := { qname : string; qtype : Z; qclass : Z }.

Section Codec.
Context `{Host}.

(** [parse_dns_header]: [None] is the [false] result. *)
Definition parse_dns_header (data : list ascii) (len : Z)
  : outcome (option DNSHeader) :=
  if len <? 12 then Value None
  else match read_range data 0 12 with
       | Some [i0; i1; f0; f1; q0; q1; a0; a1; n0; n1; r0; r1] =>
         Value (Some {| id := load_u16 i0 i1;
                        flags := ntohs (load_u16 f0 f1);
                        qdcount := ntohs (load_u16 q0 q1);
                        ancount := ntohs (load_u16 a0 a1);
                        nscount := ntohs (load_u16 n0 n1);
                        arcount := ntohs (load_u16 r0 r1) |})
       | _ => Undefined
       end.

(** [parse_dns_question]: [Value None] is the [false] result; on
    success the question and the advanced [offset]. *)
Definition parse_dns_question (fuel : nat) (data : list ascii) (len offset : Z)
  : outcome (option (DNSQuestion * Z)) :=
  match parse_domain_name fuel data len offset with
  | Returned _ name s =>
    let offset := ps_offset s in
    if String.eqb name EmptyString || (wrap64 (offset + 4) >? len)
    then Value None
    else match read_range data offset 4 with
         | Some [t0; t1; c0; c1] =>
           Value (Some ({| qname := name;
                           qtype := ntohs (load_u16 t0 t1);
                           qclass := ntohs (load_u16 c0 c1) |},
                        wrap64 (offset + 4)))
         | _ => Undefined
         end
  | Faulted _ => Undefined
  | OutOfFuel _ => NoFuel
  end.

(** The characters [std::getline(iss, label, '.')] extracts from a
    stream that still holds [s]: those before the first dot, or all of
    them when there is none; and what the stream holds afterwards. *)
Fixpoint read_label (s : string) : string * string :=
  match s with
  | EmptyString => (EmptyString, EmptyString)
  | String c s' =>
    if Ascii.eqb c "." then (EmptyString, s')
    else let (l, r) := read_label s' in (String c l, r)
  end.

(** [getline] as the loop condition sees it: [None] when nothing is left
    to extract (the stream fails and the loop ends), otherwise the label
    and the rest of the stream. *)
Definition getline (iss : string) : option (string * string) :=
  match iss with
  | EmptyString => None
  | _ => Some (read_label iss)
  end.

(** [while (getline(iss, label, '.')) { push length; insert label }] *)
Fixpoint encode_labels (fuel : nat) (iss : string) (buffer : list ascii)
  : list ascii :=
  match fuel with
  | O => buffer
  | S fuel' =>
    match getline iss with
    | None => buffer
    | Some (label, iss') =>
      encode_labels fuel' iss'
        (buffer ++ octet (Z.of_nat (String.length label))
                :: list_ascii_of_string label)
    end
  end.

(** Every [getline] that succeeds consumes a character, so the loop
    runs at most [length domain] times. *)
Definition encode_domain_name (domain : string) (buffer : list ascii)
  : list ascii :=
  encode_labels (S (String.length domain)) domain buffer ++ [octet 0].

(** The question section as [build_dns_response] and
    [add_local_domain] append it (both with type 1 and class 1):
    the encoded name, then [htons] of the type and of the class. *)
Definition encode_question (buffer : list ascii) (domain : string)
           (qtype qclass : Z) : list ascii :=
  encode_domain_name domain buffer
    ++ store_u16 (htons qtype) ++ store_u16 (htons qclass).

Definition build_error_response (query_id rcode : Z) : list ascii :=
  store_u16 query_id ++ store_u16 (htons (Z.lor 33152 rcode))
    ++ store_u16 (htons 0) ++ store_u16 (htons 0)
    ++ store_u16 (htons 0) ++ store_u16 (htons 0).

(** The answer packet: header, question, and one A record whose owner
    name is the pointer [C0 0C].  [build_dns_response] and
    [PrecompiledResponses::add_local_domain] build it with the same
    statements, the latter with a zero id. *)
Definition answer_packet (query_id : Z) (domain ip : string) : list ascii :=
  let header :=
    store_u16 query_id ++ store_u16 (htons 33152)
      ++ store_u16 (htons 1) ++ store_u16 (htons 1)
      ++ store_u16 (htons 0) ++ store_u16 (htons 0) in
  encode_question header domain 1 1
    ++ [octet 192; octet 12]
    ++ store_u16 (htons 1) ++ store_u16 (htons 1)
    ++ store_htonl 300 ++ store_u16 (htons 4)
    ++ match inet_aton ip with Some addr => addr | None => [] end.

Definition build_dns_response (query_id : Z) (domain ip : string)
  : list ascii := answer_packet query_id domain ip.

(** ** Pre-compiled response table *)

Definition add_local_domain (domain ip : string)
           (responses : gmap string (list ascii)) : gmap string (list ascii) :=
  <[domain := answer_packet 0 domain ip]> responses.

(** [get_response]: a copy of the stored packet with its first two
    octets overwritten by [query_id]. *)
Definition get_response (responses : gmap string (list ascii))
           (domain : string) (query_id : Z) : outcome (option (list ascii)) :=
  match responses !! domain with
  | None => Value None
  | Some response =>
    if Z.of_nat (length response) <? 2 then Undefined
    else Value (Some (store_u16 query_id ++ drop 2 response))
  end.

(** [::tolower] in the "C" locale, mapped over the name. *)
Definition tolower (c : ascii) : ascii :=
  if (65 <=? u8 c) && (u8 c <=? 90) then octet (u8 c + 32) else c.

Fixpoint lowercase (s : string) : string :=
  match s with
  | EmptyString => EmptyString
  | String c s' => String (tolower c) (lowercase s')
  end.
End Codec.

(** ** The sharded TTL + LRU cache *)

Definition CACHE_SIZE : Z := 8192.
Definition NUM_SHARDS : Z := 16.
Definition MAX_ENTRIES_PER_SHARD : Z := CACHE_SIZE / NUM_SHARDS.

(** Ticks of [steady_clock] in one second ([chrono::seconds] converted to
    the clock's nanosecond duration). *)
Definition TICKS_PER_SECOND : Z := 1000000000.

Record CacheEntry := { ip : string; expiry : Z; hits : Z }.

(** [CacheEntry(ip_addr, ttl_seconds)]; [now] is the constructor's read
    of the clock. *)
Definition new_entry (now : Z) (ip_addr : string) (ttl_seconds : Z) : CacheEntry :=
  {| ip := ip_addr; expiry := now + ttl_seconds * TICKS_PER_SECOND; hits := 0 |}.

(** [is_valid()]; [now] is its read of the clock. *)
Definition is_valid (now : Z) (e : CacheEntry) : bool := now <? expiry e.

Definition hit (e : CacheEntry) : CacheEntry :=
  {| ip := ip e; expiry := expiry e; hits := (hits e + 1) mod 2 ^ 32 |}.

(** A [std::list<string>] is a sequence of nodes; a node is named by the
    handle an iterator to it holds, which survives the insertion and
    removal of other nodes.  [next_node] is the handle the next
    [push_front] will allocate. *)
Record Shard := {
  entries : gmap string CacheEntry;
  lru_list : list (nat * string);
  lru_map : gmap string nat;
  next_node : nat;
  shard_hits : Z;
  misses : Z;
  evictions : Z
}.

Definition empty_shard : Shard :=
  {| entries := ∅; lru_list := []; lru_map := ∅; next_node := O;
     shard_hits := 0; misses := 0; evictions := 0 |}.

#[global] Instance Shard_inhabited : Inhabited Shard := populate empty_shard.

(** [lru_list.erase(it)] for the iterator holding handle [h]. *)
Definition erase_node (h : nat) (l : list (nat * string)) : list (nat * string) :=
  filter (fun n => n.1 ≠ h) l.

(** The three statements removing [domain] from the recency structures
    and from [entries], as in [cleanup_expired] and in the stale branch
    of [get]. *)
Definition erase_entry (domain : string) (s : Shard) : Shard :=
  let '(l, m) :=
    match lru_map s !! domain with
    | Some h => (erase_node h (lru_list s), delete domain (lru_map s))
    | None => (lru_list s, lru_map s)
    end in
  {| entries := delete domain (entries s); lru_list := l; lru_map := m;
     next_node := next_node s; shard_hits := shard_hits s;
     misses := misses s; evictions := evictions s |}.

(** [Shard::cleanup_expired]; [now] is its read of the clock.  The loop
    visits every entry once and erases those with [now >= expiry]. *)
Definition expired_keys (now : Z) (m : gmap string CacheEntry) : list string :=
  (map_to_list (filter (fun kv => expiry kv.2 ≤ now) m)).*1.

Definition cleanup_expired (now : Z) (s : Shard) : Shard :=
  foldr erase_entry s (expired_keys now (entries s)).

(** [Shard::evict_lru] *)
Definition evict_lru (s : Shard) : Shard :=
  if (MAX_ENTRIES_PER_SHARD <=? Z.of_nat (size (entries s)))
  then match last (lru_list s) with
       | Some (_, oldest) =>
         {| entries := delete oldest (entries s);
            lru_list := removelast (lru_list s);
            lru_map := delete oldest (lru_map s);
            next_node := next_node s; shard_hits := shard_hits s;
            misses := misses s; evictions := wrap64 (evictions s + 1) |}
       | None => s
       end
  else s.

(** [Shard::touch_lru] *)
Definition touch_lru (domain : string) (s : Shard) : Shard :=
  let l := match lru_map s !! domain with
           | Some h => erase_node h (lru_list s)
           | None => lru_list s
           end in
  {| entries := entries s;
     lru_list := (next_node s, domain) :: l;
     lru_map := <[domain := next_node s]> (lru_map s);
     next_node := S (next_node s); shard_hits := shard_hits s;
     misses := misses s; evictions := evictions s |}.

Definition set_entry (domain : string) (e : CacheEntry) (s : Shard) : Shard :=
  {| entries := <[domain := e]> (entries s); lru_list := lru_list s;
     lru_map := lru_map s; next_node := next_node s;
     shard_hits := shard_hits s; misses := misses s;
     evictions := evictions s |}.

Definition count_hit (s : Shard) : Shard :=
  {| entries := entries s; lru_list := lru_list s; lru_map := lru_map s;
     next_node := next_node s; shard_hits := wrap64 (shard_hits s + 1);
     misses := misses s; evictions := evictions s |}.

Definition count_miss (s : Shard) : Shard :=
  {| entries := entries s; lru_list := lru_list s; lru_map := lru_map s;
     next_node := next_node s; shard_hits := shard_hits s;
     misses := wrap64 (misses s + 1); evictions := evictions s |}.

(** The critical section of [FastDNSCache::get]: [t_sweep] is the clock
    read by [cleanup_expired], [t_valid] the one read by [is_valid].
    The result is the [ip] out-parameter when the call returns [true]. *)
Definition shard_get (domain : string) (t_sweep t_valid : Z) (s : Shard)
  : option string * Shard :=
  let s := cleanup_expired t_sweep s in
  match entries s !! domain with
  | Some e =>
    if is_valid t_valid e
    then (Some (ip e), touch_lru domain (count_hit (set_entry domain (hit e) s)))
    else (None, count_miss (erase_entry domain s))
  | None => (None, count_miss s)
  end.

(** The critical section of [FastDNSCache::set]: [t_sweep] is the clock
    read by [cleanup_expired], [t_ctor] the one read by the
    [CacheEntry] constructor. *)
Definition shard_set (domain ip_addr : string) (ttl t_sweep t_ctor : Z) (s : Shard)
  : Shard :=
  touch_lru domain
    (set_entry domain (new_entry t_ctor ip_addr ttl)
       (evict_lru (cleanup_expired t_sweep s))).

Record Stats := {
  st_hits : Z; st_misses : Z; st_evictions : Z; st_size : Z
}.

Section Cache.
Context `{Host}.

(** [FastDNSCache]: the array of shards. *)
Definition get_shard_index (domain : string) : nat :=
  Z.to_nat (Z.land (hash_string domain) (NUM_SHARDS - 1)).

Definition empty_cache : list Shard := replicate (Z.to_nat NUM_SHARDS) empty_shard.

Definition cache_get (domain : string) (t_sweep t_valid : Z) (shards : list Shard)
  : option string * list Shard :=
  let i := get_shard_index domain in
  let '(r, s) := shard_get domain t_sweep t_valid (shards !!! i) in
  (r, <[i := s]> shards).

Definition cache_set (domain ip_addr : string) (ttl t_sweep t_ctor : Z)
           (shards : list Shard) : list Shard :=
  let i := get_shard_index domain in
  <[i := shard_set domain ip_addr ttl t_sweep t_ctor (shards !!! i)]> shards.

(** [FastDNSCache::cleanup_expired]; [t_sweep i] is the clock read while
    shard [i] is swept. *)
Definition cache_cleanup_expired (t_sweep : nat -> Z) (shards : list Shard)
  : list Shard :=
  imap (fun i s => cleanup_expired (t_sweep i) s) shards.

Definition get_stats (shards : list Shard) : Stats :=
  foldl (fun st s =>
           {| st_hits := wrap64 (st_hits st + shard_hits s);
              st_misses := wrap64 (st_misses st + misses s);
              st_evictions := wrap64 (st_evictions st + evictions s);
              st_size := wrap64 (st_size st + Z.of_nat (size (entries s))) |})
        {| st_hits := 0; st_misses := 0; st_evictions := 0; st_size := 0 |}
        shards.

(** The public operations, one constructor per call. *)
Inductive cache_op :=
| OpGet (domain : string) (t_sweep t_valid : Z)
| OpSet (domain ip_addr : string) (ttl t_sweep t_ctor : Z)
| OpCleanup (t_sweep : nat -> Z).

Definition apply_op (shards : list Shard) (o : cache_op) : list Shard :=
  match o with
  | OpGet d t1 t2 => (cache_get d t1 t2 shards).2
  | OpSet d a ttl t1 t2 => cache_set d a ttl t1 t2 shards
  | OpCleanup ts => cache_cleanup_expired ts shards
  end.

Definition run_ops (ops : list cache_op) : list Shard :=
  foldl apply_op empty_cache ops.
End Cache.

(** ** The query dispatcher *)

Record DNSServer := {
  cache : list Shard;
  precompiled : gmap string (list ascii);
  total_queries : Z;
  cache_hits : Z;
  local_domain_hits : Z
}.

(** What a call of [handle_query] does that is visible outside the
    server object, in order: the probes of the pre-compiled table, of the
    cache and of the upstream resolver, and the datagram handed to
    [sendto]. *)
Inductive event :=
| PrecompiledLookup (domain : string)
| CacheGet (domain : string)
| ResolveUpstream (domain : string)
| CacheSet (domain ip_addr : string)
| SendTo (packet : list ascii).

(** The reads of [steady_clock] made by the cache calls of one query. *)
Record QueryClock := {
  t_get_sweep : Z; t_get_valid : Z; t_set_sweep : Z; t_set_ctor : Z
}.

Section Server.
Context `{Host}.

Definition count_query (srv : DNSServer) : DNSServer :=
  {| cache := cache srv; precompiled := precompiled srv;
     total_queries := wrap64 (total_queries srv + 1);
     cache_hits := cache_hits srv;
     local_domain_hits := local_domain_hits srv |}.

Definition count_local_hit (srv : DNSServer) : DNSServer :=
  {| cache := cache srv; precompiled := precompiled srv;
     total_queries := total_queries srv; cache_hits := cache_hits srv;
     local_domain_hits := wrap64 (local_domain_hits srv + 1) |}.

Definition count_cache_hit (srv : DNSServer) : DNSServer :=
  {| cache := cache srv; precompiled := precompiled srv;
     total_queries := total_queries srv;
     cache_hits := wrap64 (cache_hits srv + 1);
     local_domain_hits := local_domain_hits srv |}.

Definition with_cache (c : list Shard) (srv : DNSServer) : DNSServer :=
  {| cache := c; precompiled := precompiled srv;
     total_queries := total_queries srv; cache_hits := cache_hits srv;
     local_domain_hits := local_domain_hits srv |}.

(** [resolve_upstream]: the first IPv4 address [getaddrinfo] reports. *)
Definition resolve_upstream (domain : string) : option string :=
  getaddrinfo_ipv4 domain.

(** [DNSServer::handle_query].  The response-time reservoir and the
    slow-path log line depend only on the wall clock and are left out;
    nothing below reads them. *)
Definition handle_query (fuel : nat) (clk : QueryClock)
           (data : list ascii) (len : Z) (srv : DNSServer)
  : outcome (DNSServer * list event) :=
  let srv := count_query srv in
  match parse_dns_header data len with
  | Undefined => Undefined
  | NoFuel => NoFuel
  | Value None => Value (srv, [])
  | Value (Some header) =>
    if negb (qdcount header =? 1) then Value (srv, [])
    else
      match parse_dns_question fuel data len 12 with
      | Undefined => Undefined
      | NoFuel => NoFuel
      | Value None => Value (srv, [])
      | Value (Some (question, _)) =>
        if negb (qtype question =? 1) then
          Value (srv, [SendTo (build_error_response (id header) 4)])
        else
          let domain := lowercase (qname question) in
          match get_response (precompiled srv) domain (id header) with
          | Undefined => Undefined
          | NoFuel => NoFuel
          | Value (Some response) =>
            Value (count_local_hit srv,
                   [PrecompiledLookup domain; SendTo response])
          | Value None =>
            match cache_get domain (t_get_sweep clk) (t_get_valid clk)
                            (cache srv) with
            | (Some cached_ip, c) =>
              Value (count_cache_hit (with_cache c srv),
                     [PrecompiledLookup domain; CacheGet domain;
                      SendTo (build_dns_response (id header)
                                (qname question) cached_ip)])
            | (None, c) =>
              match resolve_upstream domain with
              | Some resolved_ip =>
                Value (with_cache
                         (cache_set domain resolved_ip 300
                            (t_set_sweep clk) (t_set_ctor clk) c) srv,
                       [PrecompiledLookup domain; CacheGet domain;
                        ResolveUpstream domain;
                        CacheSet domain resolved_ip;
                        SendTo (build_dns_response (id header)
                                  (qname question) resolved_ip)])
              | None =>
                Value (with_cache c srv,
                       [PrecompiledLookup domain; CacheGet domain;
                        ResolveUpstream domain;
                        SendTo (build_error_response (id header) 2)])
              end
            end
          end
      end
  end.
End Server.

(** ** Statistics *)

(** [double] is IEEE 754 binary64. *)
Definition double := spec_float.
Definition double_of_u64 (n : Z) : double := binary_normalize 53 1024 n 0 false.
Definition double_div (x y : double) : double := SFdiv 53 1024 x y.

(** [PerformanceStats] as [get_performance_stats] fills it.  The local
    [stats] is declared without an initialiser, so a member that is never
    assigned holds an indeterminate value: [None].  The three
    response-time members depend only on the reservoir and are left out. *)
Record PerformanceStats := {
  stat_total_queries : Z;
  stat_cache_hits : Z;
  stat_local_domain_hits : Z;
  cache_hit_ratio : option double
}.

Definition get_performance_stats (srv : DNSServer) : PerformanceStats :=
  {| stat_total_queries := total_queries srv;
     stat_cache_hits := cache_hits srv;
     stat_local_domain_hits := local_domain_hits srv;
     cache_hit_ratio :=
       if total_queries srv >? 0
       then Some (double_div
                    (double_of_u64 (wrap64 (cache_hits srv + local_domain_hits srv)))
                    (double_of_u64 (total_queries srv)))
       else None |}.

(** [FastDNSCache::Stats::hit_ratio], the cache's own ratio. *)
Definition hit_ratio (st : Stats) : double :=
  if wrap64 (st_hits st + st_misses st) >? 0
  then double_div (double_of_u64 (st_hits st))
                  (double_of_u64 (wrap64 (st_hits st + st_misses st)))
  else S754_zero false.

(** ** Reference notions used to state the properties *)

(** The position of the first compression pointer met when the labels of
    a name are walked from [offset] without following any pointer; the
    fuel bounds the number of labels walked. *)
Fixpoint first_pointer_from (fuel : nat) (data : list ascii) (len offset : Z)
  : option Z :=
  match fuel with
  | O => None
  | S fuel' =>
    if offset <? len then
      match read data offset with
      | None => None
      | Some c =>
        if u8 c =? 0 then None
        else if is_pointer (u8 c) then Some offset
        else if offset + 1 + u8 c >? len then None
        else first_pointer_from fuel' data len (offset + 1 + u8 c)
      end
    else None
  end.

Definition first_pointer (data : list ascii) (len offset : Z) : option Z :=
  first_pointer_from (S (length data)) data len offset.

(** The wire form of an uncompressed name and of a question. *)
Definition wire_label (l : string) : list ascii :=
  octet (Z.of_nat (String.length l)) :: list_ascii_of_string l.

Definition wire_name (labels : list string) : list ascii :=
  concat (map wire_label labels) ++ [octet 0].

Definition be16 (v : Z) : list ascii := [octet (v / 256); octet v].

Definition wire_question (labels : list string) (qtype qclass : Z) : list ascii :=
  wire_name labels ++ be16 qtype ++ be16 qclass.

(** A label of a well-formed name has between 1 and 63 octets. *)
Definition plain_label (l : string) : Prop :=
  (1 <= String.length l <= 63)%nat.

Definition dot_free (l : string) : Prop :=
  forallb (fun c => negb (Ascii.eqb c ".")) (list_ascii_of_string l) = true.

(** The textual name of a label sequence: the labels joined by dots. *)
Fixpoint dotted (labels : list string) : string :=
  match labels with
  | [] => EmptyString
  | l :: ls => ("." +:+ l +:+ dotted ls)%string
  end.

Definition join_labels (labels : list string) : string :=
  match labels with
  | [] => EmptyString
  | l :: ls => (l +:+ dotted ls)%string
  end.

Definition octets (l : list Z) : list ascii := map octet l.

(** The 12-octet reply with RCODE 4 (NOTIMP) to a query whose first two
    octets are [id_octets]: flags 0x8184 and four zero counts. *)
Definition notimp_reply (id_octets : list ascii) : list ascii :=
  id_octets ++ octets [129; 132; 0; 0; 0; 0; 0; 0; 0; 0].

(** ** The shard invariant *)

(** The keys of the recency list, most recently used first. *)
Definition lru_keys (s : Shard) : list string := (lru_list s).*2.

(** [entries] and [lru_map] have the same keys; [lru_map] sends a key to
    the handle of the list node holding that key, and every node is
    indexed; handles name one node each; handles still to be allocated
    are not in use. *)
Record shard_inv (s : Shard) : Prop := {
  inv_keys : forall k, is_Some (entries s !! k) <-> is_Some (lru_map s !! k);
  inv_index : forall k h, lru_map s !! k = Some h <-> (h, k) ∈ lru_list s;
  inv_handles : NoDup (lru_list s).*1;
  inv_fresh : forall h k, (h, k) ∈ lru_list s -> (h < next_node s)%nat
}.

Definition shard_ok (s : Shard) : Prop :=
  shard_inv s /\ Z.of_nat (size (entries s)) <= MAX_ENTRIES_PER_SHARD.

(** The cross-structure invariant in terms of key sets: the three
    structures hold the same keys, each key once in the list, and the
    index sends a key to the handle of the one node holding it. *)
Definition structures_agree (s : Shard) : Prop :=
  (dom (entries s) : gset string) = dom (lru_map s)
  /\ (dom (lru_map s) : gset string) = list_to_set (lru_keys s)
  /\ NoDup (lru_keys s)
  /\ length (lru_list s) = size (entries s)
  /\ size (lru_map s) = size (entries s)
  /\ forall k, k ∈ lru_keys s ->
       exists h, lru_map s !! k = Some h
                 /\ (h, k) ∈ lru_list s
                 /\ forall k', (h, k') ∈ lru_list s -> k' = k.

(** ** Sample hosts, datagrams and cache contents *)

(** A little-endian host whose hash sends every name to shard 0 and
    whose resolver knows no name. *)
Definition little_endian_host : Host :=
  {| host_big_endian := false;
     hash_string := fun _ => 0;
     getaddrinfo_ipv4 := fun _ => None;
     inet_aton := fun _ => None |}.

(** The header of a standard query: id 0x1234, RD set, one question. *)
Definition query_header : list ascii :=
  octets [18; 52; 1; 0; 0; 1; 0; 0; 0; 0; 0; 0].

(** An ordinary A query, an AAAA (type 28) query, an A query in class 3
    (CHAOS), and an A query whose single label holds a dot
    ([3 'a' '.' 'b']). *)
Definition example_query : list ascii :=
  query_header ++ wire_question ["www"; "example"; "com"] 1 1 ++ [].

Definition aaaa_query : list ascii :=
  query_header ++ wire_question ["example"; "com"] 28 1.

Definition chaos_class_query : list ascii :=
  query_header ++ wire_question ["a"] 1 3.

Definition dotted_label_query : list ascii :=
  query_header ++ wire_question ["a.b"] 1 1.

(** An A query for the root name. *)
Definition root_query : list ascii := query_header ++ wire_question [] 1 1.

(** A 14-octet query whose name is the pointer [C0 0C], which refers to
    itself. *)
Definition cyclic_query : list ascii := query_header ++ octets [192; 12].

(** A name that is a pointer to offset 14, where the root terminator
    lies. *)
Definition pointer_to_terminator : list ascii :=
  query_header ++ octets [192; 14; 0].

(** A name that is a pointer to offset 15, where a label announces five
    octets although only one is left. *)
Definition overrun_after_jump : list ascii :=
  query_header ++ octets [192; 15; 0; 5].

(** A 13-octet query cut after the first octet of a pointer, and a
    datagram as it lies in the 512-octet receive buffer of
    [worker_thread]. *)
Definition truncated_query : list ascii := query_header ++ octets [192].

Definition receive_buffer (datagram : list ascii) : list ascii :=
  datagram ++ replicate (512 - length datagram) (octet 0).

Definition idle_clock : QueryClock :=
  {| t_get_sweep := 0; t_get_valid := 0; t_set_sweep := 0; t_set_ctor := 0 |}.

Definition fresh_server : DNSServer :=
  {| cache := empty_cache; precompiled := ∅;
     total_queries := 0; cache_hits := 0; local_domain_hits := 0 |}.

(** The names of [test_cache.cpp]: test0.com, test1.com, ... *)
Definition test_domain (i : nat) : string := "test" +:+ pretty i +:+ ".com".

(** A shard after [n] consecutive [set]s of distinct names at time 0 with
    a TTL of 300 seconds. *)
Definition filled_shard (n : nat) : Shard :=
  foldl (fun s i => shard_set (test_domain i) "192.168.1.1" 300 0 0 s)
        empty_shard (seq 0 n).

(** The two names of the TTL test of [test_cache.cpp], stored at time 0
    with TTLs of 1 and 300 seconds. *)
Definition ttl_test_shard : Shard :=
  shard_set "short-ttl.com" "10.0.0.1" 1 0 0
    (shard_set "long-ttl.com" "10.0.0.2" 300 0 0 empty_shard).


(** ** Further reference notions *)

(** The number of [get] calls of an operation sequence that are routed
    to shard [i]. *)
Fixpoint gets_on `{Host} (i : nat) (ops : list cache_op) : nat :=
  match ops with
  | [] => O
  | OpGet d _ _ :: ops' =>
    if Nat.eqb (get_shard_index d) i then S (gets_on i ops') else gets_on i ops'
  | _ :: ops' => gets_on i ops'
  end.

(** The datagrams handed to [sendto] in a trace. *)
Fixpoint sent_packets (evs : list event) : list (list ascii) :=
  match evs with
  | [] => []
  | SendTo packet :: evs' => packet :: sent_packets evs'
  | _ :: evs' => sent_packets evs'
  end.

(** The two statements with which [handle_query] records a response
    time: [response_times.push_back(t)], then, when more than 10000
    samples are held, the erasure of the first 5000.  The sample type is
    left open. *)
Definition record_response_time {A : Type} (t : A) (response_times : list A)
  : list A :=
  let pushed := response_times ++ [t] in
  if (10000 <? Z.of_nat (length pushed)) then drop (Z.to_nat 5000) pushed
  else pushed.

(** A host whose hash is the length of the name and whose resolver knows
    example.com. *)
Definition stub_host : Host :=
  {| host_big_endian := false;
     hash_string := fun s => Z.of_nat (String.length s);
     getaddrinfo_ipv4 := fun d =>
       if String.eqb d "example.com" then Some "203.0.113.5"%string else None;
     inet_aton := fun a =>
       if String.eqb a "203.0.113.5" then Some (octets [203; 0; 113; 5])
       else None |}.

(** An A query for Example.COM, and a server whose table holds
    example.com. *)
Definition mixed_case_query : list ascii :=
  query_header ++ wire_question ["Example"; "COM"] 1 1.

Definition local_server : DNSServer :=
  {| cache := empty_cache;
     precompiled := @add_local_domain stub_host "example.com" "203.0.113.5" ∅;
     total_queries := 0; cache_hits := 0; local_domain_hits := 0 |}.

(** The answer to [mixed_case_query] for a name spelled [labels]. *)
Definition example_answer (labels : list string) : list ascii :=
  octets [18; 52; 129; 128; 0; 1; 0; 1; 0; 0; 0; 0]
    ++ wire_question labels 1 1
    ++ octets [192; 12; 0; 1; 0; 1; 0; 0; 1; 44; 0; 4; 203; 0; 113; 5].

(* ================================================================== *)
(** * Part II: properties                                              *)
(* ================================================================== *)

(** ** Octets *)

Lemma u8_range c : 0 <= u8 c < 256.
Proof.
  unfold u8. pose proof (N_ascii_bounded c). lia.
Qed.

Lemma u8_octet z : u8 (octet z) = z mod 256.
Proof.
  unfold u8, octet.
  assert (0 <= z mod 256 < 256) by (apply Z.mod_pos_bound; lia).
  rewrite N_ascii_embedding by lia. lia.
Qed.

Lemma octet_u8 c : octet (u8 c) = c.
Proof.
  unfold octet. pose proof (u8_range c).
  rewrite Z.mod_small by lia. unfold u8.
  rewrite N2Z.id. apply ascii_N_embedding.
Qed.

Lemma wrap64_small z : 0 <= z < 2 ^ 64 -> wrap64 z = z.
Proof. intros. unfold wrap64. apply Z.mod_small. lia. Qed.

Lemma is_pointer_small n : 0 <= n < 192 -> is_pointer n = false.
Proof.
  intros Hn. unfold is_pointer. apply Z.eqb_neq. intros Hl.
  assert (Hb : Z.testbit (Z.land n 192) 6 && Z.testbit (Z.land n 192) 7 = true)
    by (rewrite Hl; reflexivity).
  rewrite !Z.land_spec in Hb.
  assert (Hn' : n = Z.of_nat (Z.to_nat n)) by lia.
  revert Hb. rewrite Hn'.
  assert (Hk : (Z.to_nat n < 192)%nat) by lia.
  revert Hk. generalize (Z.to_nat n). intros k Hk.
  do 192 (destruct k as [|k]; [vm_compute; discriminate|]).
  lia.
Qed.

(** ** The name decoder: termination, bounds, cursor *)

Lemma parse_step_cycle (s : pstate) :
  ps_offset s = 12 ->
  exists s', parse_step cyclic_query 14 s = Next s' /\ ps_offset s' = 12.
Proof.
  intros Ho. unfold parse_step. rewrite Ho.
  eexists. split; reflexivity.
Qed.

Lemma parse_loop_cycle (fuel : nat) : forall s,
  ps_offset s = 12 ->
  exists s', parse_loop fuel cyclic_query 14 s = OutOfFuel s'.
Proof.
  induction fuel as [|fuel IH]; intros s Ho; simpl.
  - eauto.
  - destruct (parse_step_cycle s Ho) as (s' & -> & Ho').
    apply IH, Ho'.
Qed.

(** C9.  The decoder does not terminate on every buffer: on the query
    whose name is a pointer to itself the loop is still running after any
    number of iterations, and so is [handle_query]. *)
Theorem parse_domain_name_pointer_cycle (fuel : nat) :
  (exists s, parse_domain_name fuel cyclic_query 14 12 = OutOfFuel s)
  /\ @handle_query little_endian_host fuel idle_clock cyclic_query 14 fresh_server
     = NoFuel.
Proof.
  assert (Hp : exists s, parse_domain_name fuel cyclic_query 14 12 = OutOfFuel s)
    by (apply parse_loop_cycle; reflexivity).
  split; [exact Hp|].
  destruct Hp as (s & Hs).
  unfold handle_query.
  change (parse_dns_header cyclic_query 14) with
    (Value (Some {| id := 13330; flags := 256; qdcount := 1; ancount := 0;
                    nscount := 0; arcount := 0 |})).
  cbn [qdcount Z.eqb negb Pos.eqb].
  unfold parse_dns_question. rewrite Hs. reflexivity.
Qed.

(** C10.  The decoder reads past [len]: for the 13-octet query that ends
    in the first octet of a pointer, index 13 = [len] is dereferenced.
    In the receive buffer the read yields a stale octet; in an object of
    exactly 13 octets it is undefined behaviour. *)
Theorem parse_domain_name_reads_at_len :
  (exists k name s,
     parse_domain_name 2 (receive_buffer truncated_query) 13 12
       = Returned k name s /\ In 13 (ps_reads s))
  /\ (exists s, parse_domain_name 2 truncated_query 13 12 = Faulted s
                /\ In 13 (ps_reads s)).
Proof.
  split.
  - eexists _, _, _. split; [vm_compute; reflexivity|]. simpl. tauto.
  - eexists. split; [vm_compute; reflexivity|]. simpl. tauto.
Qed.

Lemma parse_step_jumped_next data len s s1 :
  ps_jumped s = true ->
  parse_step data len s = Next s1 ->
  ps_jumped s1 = true /\ ps_original_offset s1 = ps_original_offset s.
Proof.
  intros Hj Hs. unfold parse_step, leave_loop, mark_jump in Hs.
  repeat case_match; simplify_eq/=; auto; congruence.
Qed.

Lemma parse_step_jumped_exit data len s name s1 :
  ps_jumped s = true ->
  parse_step data len s = Done LoopExit name s1 ->
  ps_offset s1 = ps_original_offset s.
Proof.
  intros Hj Hs. unfold parse_step, leave_loop, mark_jump in Hs.
  repeat case_match; simplify_eq/=; auto; congruence.
Qed.

(** Once a pointer has been followed, leaving the loop puts the cursor
    back on [original_offset], however many pointers follow. *)
Lemma parse_loop_jumped data len name s' (fuel : nat) : forall s,
  ps_jumped s = true ->
  parse_loop fuel data len s = Returned LoopExit name s' ->
  ps_offset s' = ps_original_offset s.
Proof.
  induction fuel as [|fuel IH]; intros s Hj Hr; simpl in Hr; [discriminate|].
  destruct (parse_step data len s) as [s1|k nm s1|s1] eqn:Hs; [| |discriminate].
  - destruct (parse_step_jumped_next _ _ _ _ Hj Hs) as [Hj1 Ho1].
    rewrite <- Ho1. eauto.
  - simplify_eq. eapply parse_step_jumped_exit; eauto.
Qed.

Lemma parse_loop_first_pointer data len p name s' (n : nat) :
  len < 2 ^ 63 ->
  forall (fuel : nat) s,
  ps_jumped s = false ->
  0 <= ps_offset s ->
  first_pointer_from n data len (ps_offset s) = Some p ->
  parse_loop fuel data len s = Returned LoopExit name s' ->
  ps_offset s' = p + 2.
Proof.
  intros Hlen. induction n as [|n IH]; intros fuel s Hj Ho Hw Hr;
    simpl in Hw; [discriminate|].
  destruct fuel as [|fuel]; simpl in Hr; [discriminate|].
  destruct (ps_offset s <? len) eqn:Hlt; [|discriminate].
  apply Z.ltb_lt in Hlt.
  destruct (read data (ps_offset s)) as [c|] eqn:Hrd; [|discriminate].
  pose proof (u8_range c) as Hc.
  destruct (u8 c =? 0) eqn:Hz; [discriminate|].
  unfold parse_step in Hr.
  assert (Hlt' : (ps_offset s <? len) = true) by (apply Z.ltb_lt; lia).
  rewrite Hlt', Hrd, Hz in Hr.
  rewrite !(wrap64_small (ps_offset s + 1)) in Hr by lia.
  destruct (is_pointer (u8 c)) eqn:Hp.
  - simplify_eq.
    destruct (read data (ps_offset s + 1)) as [c1|]; [|discriminate].
    apply parse_loop_jumped in Hr.
    + rewrite Hr. unfold mark_jump. simpl. rewrite Hj. simpl.
      apply wrap64_small. lia.
    + unfold mark_jump. simpl. rewrite Hj. reflexivity.
  - rewrite wrap64_small in Hr by lia.
    destruct (ps_offset s + 1 + u8 c >? len) eqn:Hov; [discriminate|].
    destruct (read_range data (ps_offset s + 1) (u8 c)); [|discriminate].
    eapply IH in Hr; eauto; simpl; auto. lia.
Qed.

(** C7, as the code has it.  When the name contains a compression
    pointer and the decoder returns by leaving its loop (terminator octet
    read, or cursor no longer below [len]), the cursor is on the octet
    after the first two-octet pointer met, wherever the jumps led.
    ([len] is below 2^63, as the size of any object in memory is.) *)
Theorem parse_domain_name_cursor_after_pointer
        (fuel : nat) data len offset p name s :
  0 <= offset -> len < 2 ^ 63 ->
  first_pointer data len offset = Some p ->
  parse_domain_name fuel data len offset = Returned LoopExit name s ->
  ps_offset s = p + 2.
Proof.
  intros Ho Hlen Hw Hr.
  eapply (parse_loop_first_pointer data len p name s _ Hlen fuel (parse_init offset));
    eauto.
Qed.

Lemma parse_domain_name_cursor_after_pointer_witness :
  first_pointer pointer_to_terminator 15 12 = Some 12
  /\ exists s,
       parse_domain_name 2 pointer_to_terminator 15 12 = Returned LoopExit "" s
       /\ ps_offset s = 12 + 2.
Proof.
  split; [vm_compute; reflexivity|].
  eexists. split; [vm_compute; reflexivity|].
  apply (parse_domain_name_cursor_after_pointer 2 pointer_to_terminator
           15 12 12 "").
  - lia.
  - lia.
  - vm_compute. reflexivity.
  - vm_compute. reflexivity.
Defined.

(** C7, as stated, fails: after the jump to offset 15 the label there
    overruns the buffer, the decoder returns at once and the cursor stays
    on 15 instead of 14. *)
Lemma parse_domain_name_cursor_counterexample :
  first_pointer overrun_after_jump 16 12 = Some 12
  /\ exists k name s,
       parse_domain_name 2 overrun_after_jump 16 12 = Returned k name s
       /\ ps_offset s = 15 /\ ps_offset s <> 12 + 2.
Proof.
  split; [vm_compute; reflexivity|].
  eexists _, _, _. split; [vm_compute; reflexivity|].
  simpl. split; [reflexivity|lia].
Qed.

(** More fuel does not change what the decoder returns. *)
Lemma parse_loop_more_fuel data len k name s' (fuel : nat) : forall s (extra : nat),
  parse_loop fuel data len s = Returned k name s' ->
  parse_loop (fuel + extra) data len s = Returned k name s'.
Proof.
  induction fuel as [|fuel IH]; intros s extra Hr; simpl in *; [discriminate|].
  destruct (parse_step data len s); auto.
Qed.

(** The walk that looks for the first pointer advances by at least two
    octets per label inside the buffer, so the fuel [first_pointer] gives
    it is never the reason for [None]. *)
Lemma first_pointer_from_enough data len (n : nat) : forall (m : nat) offset,
  0 <= offset ->
  (Z.of_nat (length data) - offset < Z.of_nat n) ->
  (n <= m)%nat ->
  first_pointer_from m data len offset = first_pointer_from n data len offset.
Proof.
  induction n as [|n IH]; intros m offset Ho Hn Hm.
  - destruct m as [|m]; [done|]. simpl.
    destruct (offset <? len); [|done].
    unfold read. destruct (offset <? 0) eqn:Hneg; [done|].
    rewrite lookup_ge_None_2 by lia. done.
  - destruct m as [|m]; [lia|]. simpl.
    destruct (offset <? len); [|done].
    destruct (read data offset) as [c|] eqn:Hrd; [|done].
    pose proof (u8_range c).
    destruct (u8 c =? 0) eqn:Hz; [done|]. apply Z.eqb_neq in Hz.
    destruct (is_pointer (u8 c)); [done|].
    destruct (offset + 1 + u8 c >? len); [done|].
    apply IH; lia.
Qed.

(** ** Strings *)

Lemma string_app_cons x (a b : string) : String x a +:+ b = String x (a +:+ b).
Proof. reflexivity. Qed.

Lemma string_app_nil_l (b : string) : EmptyString +:+ b = b.
Proof. reflexivity. Qed.

Lemma string_app_assoc (a b c : string) : (a +:+ b) +:+ c = a +:+ (b +:+ c).
Proof.
  induction a as [|x a IH]; [reflexivity|].
  rewrite !string_app_cons. by rewrite IH.
Qed.

Lemma string_app_nil_r (a : string) : a +:+ EmptyString = a.
Proof.
  induction a as [|x a IH]; [reflexivity|].
  rewrite string_app_cons. by rewrite IH.
Qed.

Lemma string_length_app (a b : string) :
  String.length (a +:+ b) = (String.length a + String.length b)%nat.
Proof.
  induction a as [|x a IH]; [reflexivity|].
  rewrite string_app_cons. simpl. by rewrite IH.
Qed.

Lemma string_length_list (a : string) :
  length (list_ascii_of_string a) = String.length a.
Proof. induction a as [|x a IH]; simpl; [reflexivity|]. by rewrite IH. Qed.

Lemma string_eqb_empty (a : string) :
  (0 < String.length a)%nat -> String.eqb a EmptyString = false.
Proof. destruct a; simpl; [lia|reflexivity]. Qed.

Lemma dot_free_cons c l : dot_free (String c l) <-> c <> "."%char /\ dot_free l.
Proof.
  unfold dot_free. simpl.
  rewrite andb_true_iff, negb_true_iff, Ascii.eqb_neq. reflexivity.
Qed.

(** ** The encoder on a dotted name *)

Lemma read_label_dot (l r : string) :
  dot_free l -> read_label (l +:+ String "." r) = (l, r).
Proof.
  induction l as [|c l IH]; intros Hd.
  - rewrite string_app_nil_l. reflexivity.
  - rewrite string_app_cons. simpl.
    apply dot_free_cons in Hd as [Hc Hd].
    apply Ascii.eqb_neq in Hc. rewrite Hc, (IH Hd). reflexivity.
Qed.

Lemma read_label_end (l : string) :
  dot_free l -> read_label l = (l, EmptyString).
Proof.
  induction l as [|c l IH]; intros Hd; simpl; [reflexivity|].
  apply dot_free_cons in Hd as [Hc Hd].
  apply Ascii.eqb_neq in Hc. rewrite Hc, (IH Hd). reflexivity.
Qed.

Lemma getline_nonempty (s : string) :
  (0 < String.length s)%nat -> getline s = Some (read_label s).
Proof. destruct s; simpl; [lia|reflexivity]. Qed.

Lemma encode_labels_dotted (ls : list string) : forall (l : string) (fuel : nat) buf,
  Forall plain_label (l :: ls) -> Forall dot_free (l :: ls) ->
  (length (l :: ls) <= fuel)%nat ->
  encode_labels fuel (l +:+ dotted ls) buf
  = buf ++ concat (map wire_label (l :: ls)).
Proof.
  induction ls as [|l' ls IH]; intros l fuel buf Hp Hd Hf.
  - destruct fuel as [|fuel]; simpl in Hf; [lia|].
    inversion Hp as [|? ? Hl _]; inversion Hd as [|? ? Hdl _]; subst.
    simpl dotted. rewrite string_app_nil_r.
    simpl. rewrite getline_nonempty by (unfold plain_label in Hl; lia).
    rewrite (read_label_end _ Hdl).
    destruct fuel; simpl; by rewrite app_nil_r.
  - destruct fuel as [|fuel]; simpl in Hf; [lia|].
    inversion Hp as [|? ? Hl Hp']; inversion Hd as [|? ? Hdl Hd']; subst.
    simpl dotted. simpl encode_labels.
    rewrite getline_nonempty
      by (rewrite string_length_app; unfold plain_label in Hl; lia).
    change ("." +:+ l' +:+ dotted ls)%string with (String "." (l' +:+ dotted ls)).
    rewrite (read_label_dot _ _ Hdl).
    rewrite IH by (auto; simpl; lia).
    change (map wire_label (l :: l' :: ls))
      with (wire_label l :: map wire_label (l' :: ls)).
    rewrite (concat_cons (wire_label l)). unfold wire_label at 3.
    by rewrite <- app_assoc.
Qed.

Lemma join_labels_length (labels : list string) :
  Forall plain_label labels ->
  (length labels <= String.length (join_labels labels))%nat.
Proof.
  destruct labels as [|l ls]; [simpl; lia|].
  intros Hp. inversion Hp as [|? ? Hl Hp']; subst. simpl.
  rewrite string_length_app. unfold plain_label in Hl.
  assert (length ls <= String.length (dotted ls))%nat; [|lia].
  clear Hl Hp. induction Hp' as [|l' ls' Hl' _ IH]; simpl; [lia|].
  rewrite !string_length_app. simpl. lia.
Qed.

Lemma encode_domain_name_join (labels : list string) buf :
  Forall plain_label labels -> Forall dot_free labels ->
  encode_domain_name (join_labels labels) buf = buf ++ wire_name labels.
Proof.
  intros Hp Hd. unfold encode_domain_name, wire_name.
  rewrite app_assoc. f_equal.
  destruct labels as [|l ls]; [simpl; by rewrite app_nil_r|].
  simpl join_labels.
  apply encode_labels_dotted; auto.
  pose proof (join_labels_length (l :: ls) Hp) as Hlen. simpl in *. lia.
Qed.

(** ** The decoder on an uncompressed name *)

Lemma read_middle (pre post : list ascii) c :
  read (pre ++ c :: post) (Z.of_nat (length pre)) = Some c.
Proof.
  unfold read. destruct (Z.of_nat (length pre) <? 0) eqn:Hneg; [apply Z.ltb_lt in Hneg; lia|].
  rewrite Nat2Z.id. apply list_lookup_middle. reflexivity.
Qed.

Lemma read_range_middle (pre mid post : list ascii) :
  read_range (pre ++ mid ++ post) (Z.of_nat (length pre)) (Z.of_nat (length mid))
  = Some mid.
Proof.
  unfold read_range. rewrite !Nat2Z.id.
  rewrite drop_app_length, take_app_length.
  destruct (Z.of_nat (length pre) <? 0) eqn:Hneg; [apply Z.ltb_lt in Hneg; lia|].
  rewrite Z.eqb_refl. reflexivity.
Qed.

Lemma dotted_app (a b : list string) : dotted (a ++ b) = dotted a +:+ dotted b.
Proof.
  induction a as [|x a IH]; [reflexivity|].
  simpl. rewrite IH. by rewrite !string_app_assoc.
Qed.

Lemma join_labels_snoc (done : list string) (l : string) :
  Forall plain_label done ->
  (if String.eqb (join_labels done) EmptyString then join_labels done
   else join_labels done +:+ ".") +:+ l
  = join_labels (done ++ [l]).
Proof.
  intros Hp. destruct done as [|d ds].
  { simpl. by rewrite string_app_nil_l, string_app_nil_r. }
  inversion Hp as [|? ? Hd _]; subst. unfold plain_label in Hd.
  rewrite string_eqb_empty
    by (simpl; rewrite string_length_app; lia).
  simpl. rewrite dotted_app. simpl.
  rewrite !string_app_assoc, string_app_nil_r. reflexivity.
Qed.

Lemma parse_step_label data len s c bytes :
  read data (ps_offset s) = Some c ->
  0 <= ps_offset s -> len < 2 ^ 64 ->
  0 < u8 c < 192 ->
  ps_offset s + 1 + u8 c <= len ->
  read_range data (ps_offset s + 1) (u8 c) = Some bytes ->
  exists s1,
    parse_step data len s = Next s1
    /\ ps_offset s1 = ps_offset s + 1 + u8 c
    /\ ps_result s1
       = (if String.eqb (ps_result s) EmptyString then ps_result s
          else ps_result s +:+ ".") +:+ string_of_list_ascii bytes
    /\ ps_jumped s1 = ps_jumped s.
Proof.
  intros Hrd Ho Hlen Hc Hfit Hrr. unfold parse_step.
  assert (Hlt : (ps_offset s <? len) = true) by (apply Z.ltb_lt; lia).
  rewrite Hlt, Hrd.
  assert (Hz : (u8 c =? 0) = false) by (apply Z.eqb_neq; lia).
  rewrite Hz, is_pointer_small by lia.
  rewrite !(wrap64_small (ps_offset s + 1)) by lia.
  rewrite wrap64_small by lia.
  assert (Hov : (ps_offset s + 1 + u8 c >? len) = false)
    by (rewrite Z.gtb_ltb; apply Z.ltb_ge; lia).
  rewrite Hov, Hrr. eexists. split; [reflexivity|]. simpl. auto.
Qed.

Lemma parse_loop_labels data len (ls : list string) :
  len < 2 ^ 64 ->
  forall (done : list string) (pre rest : list ascii) (fuel : nat) s,
  data = pre ++ concat (map wire_label ls) ++ rest ->
  Forall plain_label ls -> Forall plain_label done ->
  ps_offset s = Z.of_nat (length pre) ->
  ps_result s = join_labels done ->
  Z.of_nat (length pre + length (concat (map wire_label ls))) <= len ->
  exists s2,
    parse_loop (length ls + fuel) data len s = parse_loop fuel data len s2
    /\ ps_result s2 = join_labels (done ++ ls)
    /\ ps_offset s2 = Z.of_nat (length pre + length (concat (map wire_label ls)))
    /\ ps_jumped s2 = ps_jumped s.
Proof.
  intros Hlen. induction ls as [|l ls IH];
    intros done pre rest fuel s Hdata Hp Hdone Ho Hr Hfit.
  - exists s. simpl. rewrite app_nil_r, Nat.add_0_r. auto.
  - pose proof (Forall_inv Hp) as Hl. pose proof (Forall_inv_tail Hp) as Hp'.
    unfold plain_label in Hl.
    assert (Hu : u8 (octet (Z.of_nat (String.length l)))
                 = Z.of_nat (String.length l))
      by (rewrite u8_octet; apply Z.mod_small; lia).
    simpl in Hfit. rewrite length_app in Hfit. simpl in Hfit.
    rewrite string_length_list in Hfit.
    destruct (parse_step_label data len s
                (octet (Z.of_nat (String.length l))) (list_ascii_of_string l))
      as (s1 & Hs1 & Ho1 & Hr1 & Hj1).
    + rewrite Ho, Hdata. simpl. apply read_middle.
    + lia.
    + lia.
    + lia.
    + lia.
    + rewrite Ho, Hu, Hdata. simpl.
      replace (Z.of_nat (length pre) + 1)
        with (Z.of_nat (length (pre ++ [octet (Z.of_nat (String.length l))])))
        by (rewrite length_app; simpl; lia).
      rewrite <- (string_length_list l).
      replace (pre ++ octet (Z.of_nat (length (list_ascii_of_string l)))
                   :: (list_ascii_of_string l ++ concat (map wire_label ls)) ++ rest)
        with ((pre ++ [octet (Z.of_nat (length (list_ascii_of_string l)))])
                ++ list_ascii_of_string l ++ (concat (map wire_label ls) ++ rest))
        by (rewrite <- !app_assoc; reflexivity).
      apply read_range_middle.
    + destruct (IH (done ++ [l]) (pre ++ wire_label l) rest fuel s1)
        as (s2 & Hs2 & Hr2 & Ho2 & Hj2).
      * rewrite Hdata. simpl. rewrite <- !app_assoc. reflexivity.
      * exact Hp'.
      * apply Forall_app. split; [exact Hdone|].
        constructor; [exact Hl|constructor].
      * rewrite Ho1, Ho, Hu, length_app. simpl.
        rewrite string_length_list. lia.
      * rewrite Hr1, Hr, string_of_list_ascii_of_string.
        apply join_labels_snoc, Hdone.
      * rewrite length_app. simpl. rewrite string_length_list. lia.
      * exists s2. simpl parse_loop. rewrite Hs1, Hs2.
        rewrite <- app_assoc in Hr2. simpl in Hr2.
        rewrite length_app in Ho2. simpl in Ho2.
        rewrite string_length_list in Ho2.
        split; [reflexivity|]. split; [exact Hr2|].
        split; [|congruence].
        rewrite Ho2. simpl. rewrite length_app, string_length_list. lia.
Qed.

(** ** Byte order *)

Lemma octet_mod a b : a mod 256 = b mod 256 -> octet a = octet b.
Proof. unfold octet. by intros ->. Qed.

Section ByteOrderFacts.
Context `{Host}.

Lemma ntohs_load_u16 b0 b1 : ntohs (load_u16 b0 b1) = u8 b0 * 256 + u8 b1.
Proof.
  pose proof (u8_range b0). pose proof (u8_range b1).
  unfold ntohs, load_u16, wrap16, bswap16.
  destruct host_big_endian.
  - apply Z.mod_small. lia.
  - replace ((u8 b1 * 256 + u8 b0) mod 256) with (u8 b0)
      by (rewrite Z.add_comm, Z.mod_add by lia; symmetry; apply Z.mod_small; lia).
    replace ((u8 b1 * 256 + u8 b0) / 256) with (u8 b1)
      by (rewrite Z.add_comm, Z.div_add by lia;
          rewrite (Z.div_small (u8 b0)) by lia; lia).
    rewrite (Z.mod_small (u8 b1)) by lia. lia.
Qed.

Lemma store_u16_htons v : 0 <= v < 65536 -> store_u16 (htons v) = be16 v.
Proof.
  intros Hv. unfold store_u16, htons, wrap16, bswap16, be16.
  assert (0 <= v / 256 < 256)
    by (split; [apply Z.div_pos; lia|apply Z.div_lt_upper_bound; lia]).
  assert (0 <= v mod 256 < 256) by (apply Z.mod_pos_bound; lia).
  destruct host_big_endian.
  - rewrite Z.mod_small by lia. reflexivity.
  - f_equal; [|f_equal]; apply octet_mod.
    + rewrite Z.add_comm, Z.mod_add by lia. apply Z.mod_mod. lia.
    + rewrite Z.add_comm, Z.div_add by lia.
      rewrite (Z.div_small ((v / 256) mod 256))
        by (apply Z.mod_pos_bound; lia).
      rewrite Z.add_0_l. apply Z.mod_mod. lia.
Qed.

Lemma be16_value v :
  0 <= v < 65536 -> u8 (octet (v / 256)) * 256 + u8 (octet v) = v.
Proof.
  intros Hv. rewrite !u8_octet.
  assert (0 <= v / 256 < 256)
    by (split; [apply Z.div_pos; lia|apply Z.div_lt_upper_bound; lia]).
  rewrite (Z.mod_small (v / 256)) by lia.
  pose proof (Z.div_mod v 256). lia.
Qed.

(** C6, as the code has it.  A well-formed uncompressed question whose
    name has at least one label and no dot inside a label is decoded by
    [parse_dns_question], and encoding the decoded name, type and class
    gives back its octets. *)
Theorem question_round_trip (pre post buf : list ascii)
        (labels : list string) (qt qc len : Z) (fuel : nat) :
  labels <> [] ->
  Forall plain_label labels -> Forall dot_free labels ->
  0 <= qt < 65536 -> 0 <= qc < 65536 ->
  (length labels < fuel)%nat ->
  Z.of_nat (length (pre ++ wire_question labels qt qc)) <= len < 2 ^ 64 ->
  exists q,
    parse_dns_question fuel (pre ++ wire_question labels qt qc ++ post) len
                       (Z.of_nat (length pre))
    = Value (Some (q, Z.of_nat (length (pre ++ wire_question labels qt qc))))
    /\ qname q = join_labels labels
    /\ encode_question buf (qname q) (qtype q) (qclass q)
       = buf ++ wire_question labels qt qc.
Proof.
  intros Hne Hp Hd Hqt Hqc Hfuel Hlen.
  unfold wire_question, wire_name in *.
  rewrite !length_app in Hlen. simpl in Hlen.
  set (body := concat (map wire_label labels)) in *.
  set (data := pre ++ ((body ++ [octet 0]) ++ be16 qt ++ be16 qc) ++ post).
  destruct (parse_loop_labels data len labels ltac:(lia) [] pre
              ([octet 0] ++ (be16 qt ++ be16 qc) ++ post)
              (fuel - length labels) (parse_init (Z.of_nat (length pre))))
    as (s2 & Hs2 & Hr2 & Ho2 & Hj2); auto.
  { subst data body. rewrite <- !app_assoc. reflexivity. }
  { fold body. lia. }
  fold body in Ho2. simpl in Hr2, Hj2.
  replace (length labels + (fuel - length labels))%nat with fuel in Hs2 by lia.
  unfold parse_dns_question, parse_domain_name. rewrite Hs2.
  destruct (fuel - length labels)%nat as [|k] eqn:Hk; [lia|].
  simpl parse_loop. unfold parse_step.
  assert (Hlt : (ps_offset s2 <? len) = true) by (apply Z.ltb_lt; lia).
  rewrite Hlt.
  assert (Hrd : read data (ps_offset s2) = Some (octet 0)).
  { rewrite Ho2, <- length_app. subst data.
    rewrite <- !app_assoc. rewrite (app_assoc pre body). apply read_middle. }
  rewrite Hrd. change (u8 (octet 0) =? 0) with true. cbv iota.
  unfold leave_loop. simpl. rewrite Hj2. simpl.
  rewrite Hr2.
  assert (Hname : String.eqb (join_labels labels) EmptyString = false).
  { apply string_eqb_empty. pose proof (join_labels_length labels Hp).
    destruct labels; [done|]. simpl in *. lia. }
  rewrite Hname, Ho2. simpl orb.
  rewrite (wrap64_small (_ + 1)) by lia.
  rewrite wrap64_small by lia.
  assert (Hov : (Z.of_nat (length pre + length body) + 1 + 4 >? len) = false)
    by (rewrite Z.gtb_ltb; apply Z.ltb_ge; lia).
  rewrite Hov.
  assert (Hrr : read_range data (Z.of_nat (length pre + length body) + 1) 4
                = Some (be16 qt ++ be16 qc)).
  { replace (Z.of_nat (length pre + length body) + 1)
      with (Z.of_nat (length (pre ++ body ++ [octet 0])))
      by (rewrite !length_app; simpl; lia).
    subst data.
    replace (pre ++ ((body ++ [octet 0]) ++ be16 qt ++ be16 qc) ++ post)
      with ((pre ++ body ++ [octet 0]) ++ (be16 qt ++ be16 qc) ++ post)
      by (rewrite <- !app_assoc; reflexivity).
    apply (read_range_middle _ (be16 qt ++ be16 qc)). }
  rewrite Hrr. unfold be16. simpl app.
  eexists. split; [|split].
  - f_equal. f_equal. f_equal. rewrite !length_app. simpl. lia.
  - reflexivity.
  - simpl. unfold encode_question.
    rewrite !ntohs_load_u16, !be16_value by lia.
    rewrite encode_domain_name_join by auto.
    rewrite !store_u16_htons by lia.
    unfold wire_name. fold body. rewrite <- !app_assoc. reflexivity.
Qed.
End ByteOrderFacts.

Lemma question_round_trip_witness :
  exists q,
    @parse_dns_question little_endian_host 4 example_query 33 12
    = Value (Some (q, 33))
    /\ qname q = "www.example.com"
    /\ @encode_question little_endian_host [] (qname q) (qtype q) (qclass q)
       = wire_question ["www"; "example"; "com"] 1 1.
Proof.
  apply (@question_round_trip little_endian_host query_header [] []
           ["www"; "example"; "com"] 1 1 33 4).
  - discriminate.
  - repeat constructor; vm_compute; lia.
  - repeat constructor.
  - lia.
  - lia.
  - simpl. lia.
  - vm_compute. split; [discriminate|reflexivity].
Defined.

(** C6, as stated, fails: a label may hold any octet, and for the label
    [a.b] the decoder yields the name "a.b", which is encoded as the two
    labels [a] and [b].  And the question for the root name, whose wire
    form is the terminator alone, is not decoded at all. *)
Lemma question_round_trip_counterexample :
  (plain_label "a.b"
   /\ exists q,
        @parse_dns_question little_endian_host 2 dotted_label_query 21 12
        = Value (Some (q, 21))
        /\ @encode_question little_endian_host [] (qname q) (qtype q) (qclass q)
           <> wire_question ["a.b"] 1 1)
  /\ @parse_dns_question little_endian_host 2 root_query 17 12 = Value None.
Proof.
  split; [split; [vm_compute; lia|]|vm_compute; reflexivity].
  eexists. split; [vm_compute; reflexivity|].
  vm_compute. discriminate.
Qed.

(** ** The dispatcher *)

Section DispatcherFacts.
Context `{Host}.

Lemma store_load_u16 b0 b1 : store_u16 (load_u16 b0 b1) = [b0; b1].
Proof.
  pose proof (u8_range b0). pose proof (u8_range b1).
  unfold store_u16, load_u16. destruct host_big_endian.
  - f_equal; [|f_equal].
    + rewrite <- (octet_u8 b0) at 2. f_equal.
      rewrite Z.add_comm, Z.div_add by lia.
      rewrite (Z.div_small (u8 b1)) by lia. lia.
    + rewrite <- (octet_u8 b1) at 2. apply octet_mod.
      rewrite Z.add_comm, Z.mod_add by lia. reflexivity.
  - f_equal; [|f_equal].
    + rewrite <- (octet_u8 b0) at 2. apply octet_mod.
      rewrite Z.add_comm, Z.mod_add by lia. reflexivity.
    + rewrite <- (octet_u8 b1) at 2. f_equal.
      rewrite Z.add_comm, Z.div_add by lia.
      rewrite (Z.div_small (u8 b0)) by lia. lia.
Qed.

Lemma read_range_take data n l :
  read_range data 0 n = Some l -> take (Z.to_nat n) data = l.
Proof.
  unfold read_range. simpl. rewrite drop_0.
  case_match; [discriminate|]. by intros [= <-].
Qed.

(** The error reply echoes the first two octets of the query. *)
Lemma build_error_response_notimp data len header :
  parse_dns_header data len = Value (Some header) ->
  build_error_response (id header) 4 = notimp_reply (take 2 data).
Proof.
  unfold parse_dns_header. case_match; [discriminate|].
  destruct (read_range data 0 12) as [l|] eqn:Hr; [|discriminate].
  apply read_range_take in Hr.
  do 13 (destruct l as [|? l]; try discriminate).
  intros [= <-]. simpl.
  assert (Ht : take 2 data = [a; a0]).
  { destruct data as [|x0 [|x1 data]]; try discriminate.
    simpl in Hr. by simplify_eq. }
  rewrite Ht. unfold build_error_response, notimp_reply.
  rewrite store_load_u16.
  change (Z.lor 33152 4) with 33156.
  rewrite !store_u16_htons by lia. reflexivity.
Qed.

(** C2, as the code has it.  A datagram that parses as a header with
    one question whose [qtype] is not 1 is answered with the NOTIMP
    reply echoing the query id, and nothing else happens: no probe of
    the pre-compiled table, the cache or upstream.  The class of the
    question is not examined. *)
Theorem handle_query_notimp (fuel : nat) clk data len srv header question offset :
  parse_dns_header data len = Value (Some header) ->
  qdcount header = 1 ->
  parse_dns_question fuel data len 12 = Value (Some (question, offset)) ->
  qtype question <> 1 ->
  handle_query fuel clk data len srv
  = Value (count_query srv, [SendTo (notimp_reply (take 2 data))]).
Proof.
  intros Hh Hq Hp Ht. unfold handle_query.
  rewrite Hh, Hq, Hp. simpl.
  apply Z.eqb_neq in Ht. rewrite Ht. simpl.
  by rewrite (build_error_response_notimp data len header Hh).
Qed.
(** A question of type 1 is looked up in the pre-compiled table first,
    whatever its class. *)
Lemma handle_query_type_a (fuel : nat) clk data len srv header question offset srv' evs :
  parse_dns_header data len = Value (Some header) ->
  qdcount header = 1 ->
  parse_dns_question fuel data len 12 = Value (Some (question, offset)) ->
  qtype question = 1 ->
  handle_query fuel clk data len srv = Value (srv', evs) ->
  exists rest, evs = PrecompiledLookup (lowercase (qname question)) :: rest.
Proof.
  intros Hh Hq Hp Ht. unfold handle_query.
  rewrite Hh, Hq, Hp, Ht. simpl.
  repeat case_match; intros; simplify_eq; eauto.
Qed.
End DispatcherFacts.

Lemma handle_query_notimp_witness :
  @handle_query little_endian_host 3 idle_clock aaaa_query 29 fresh_server
  = Value (count_query fresh_server,
           [SendTo (octets [18; 52; 129; 132; 0; 0; 0; 0; 0; 0; 0; 0])]).
Proof.
  eapply (@handle_query_notimp little_endian_host 3 idle_clock aaaa_query 29
            fresh_server).
  - vm_compute. reflexivity.
  - reflexivity.
  - vm_compute. reflexivity.
  - vm_compute. discriminate.
Defined.

(** C2, as stated, fails: the A query in class 3 gets no NOTIMP reply.
    The dispatcher probes the pre-compiled table, the cache and upstream
    for it, and here, where upstream knows no name, answers SERVFAIL. *)
Lemma handle_query_qclass_counterexample :
  exists header question offset srv,
    @parse_dns_header little_endian_host chaos_class_query 19
    = Value (Some header)
    /\ qdcount header = 1
    /\ @parse_dns_question little_endian_host 2 chaos_class_query 19 12
       = Value (Some (question, offset))
    /\ qtype question = 1 /\ qclass question = 3
    /\ @handle_query little_endian_host 2 idle_clock chaos_class_query 19
         fresh_server
       = Value (srv, [PrecompiledLookup "a"; CacheGet "a"; ResolveUpstream "a";
                      SendTo (@build_error_response little_endian_host
                                (id header) 2)])
    /\ @build_error_response little_endian_host (id header) 2
       <> notimp_reply (take 2 chaos_class_query).
Proof.
  eexists _, _, _, _.
  split; [vm_compute; reflexivity|].
  split; [reflexivity|].
  split; [vm_compute; reflexivity|].
  split; [reflexivity|]. split; [reflexivity|].
  split; [vm_compute; reflexivity|].
  vm_compute. discriminate.
Qed.

(** ** Statistics *)

(** With at least one query counted the ratio member is assigned the
    quotient of the two counters converted to [double]. *)
Lemma get_performance_stats_ratio srv :
  0 < total_queries srv ->
  cache_hit_ratio (get_performance_stats srv)
  = Some (double_div
            (double_of_u64 (wrap64 (cache_hits srv + local_domain_hits srv)))
            (double_of_u64 (total_queries srv))).
Proof.
  intros Hq. unfold get_performance_stats. simpl.
  assert (Hg : (total_queries srv >? 0) = true)
    by (rewrite Z.gtb_ltb; apply Z.ltb_lt; lia).
  by rewrite Hg.
Qed.

(** C8.  With no query counted, [get_performance_stats] never assigns
    [cache_hit_ratio]: the member keeps the indeterminate value of the
    uninitialised local, not zero.  The cache's own [hit_ratio] does
    return zero for a zero denominator. *)
Theorem get_performance_stats_no_queries c p ch lh :
  cache_hit_ratio
    (get_performance_stats
       {| cache := c; precompiled := p; total_queries := 0;
          cache_hits := ch; local_domain_hits := lh |}) = None
  /\ hit_ratio {| st_hits := 0; st_misses := 0; st_evictions := 0; st_size := 0 |}
     = S754_zero false.
Proof. split; reflexivity. Qed.

(** ** The cache: the shard invariant is preserved *)

Lemma MAX_ENTRIES_PER_SHARD_eq : MAX_ENTRIES_PER_SHARD = 512.
Proof. reflexivity. Qed.

Lemma handle_names_one_node (l : list (nat * string)) h a b :
  NoDup l.*1 -> (h, a) ∈ l -> (h, b) ∈ l -> a = b.
Proof.
  induction l as [|[h' k'] l IH]; simpl; intros Hnd Ha Hb.
  - by apply elem_of_nil in Ha.
  - apply NoDup_cons in Hnd as [Hnotin Hnd].
    apply elem_of_cons in Ha as [Ha|Ha]; apply elem_of_cons in Hb as [Hb|Hb].
    + congruence.
    + exfalso. apply Hnotin. apply list_elem_of_fmap.
      exists (h, b). split; [simpl; congruence|done].
    + exfalso. apply Hnotin. apply list_elem_of_fmap.
      exists (h, a). split; [simpl; congruence|done].
    + eauto.
Qed.

Lemma erase_node_handles h (l : list (nat * string)) :
  NoDup l.*1 -> NoDup (erase_node h l).*1.
Proof.
  intros Hnd. eapply sublist_NoDup; [exact Hnd|].
  apply fmap_sublist, sublist_filter.
Qed.

Lemma elem_of_erase_node h (l : list (nat * string)) n :
  n ∈ erase_node h l <-> n.1 <> h /\ n ∈ l.
Proof. unfold erase_node. rewrite list_elem_of_filter. reflexivity. Qed.

Lemma inv_empty : shard_inv empty_shard.
Proof.
  split; simpl.
  - intros k. rewrite !lookup_empty. split; intros []; discriminate.
  - intros k h. rewrite lookup_empty. split; [discriminate|].
    intros Hin. by apply elem_of_nil in Hin.
  - constructor.
  - intros h k Hin. by apply elem_of_nil in Hin.
Qed.

Lemma entries_erase_entry k s :
  entries (erase_entry k s) = delete k (entries s).
Proof. unfold erase_entry. by destruct (lru_map s !! k). Qed.

Lemma next_node_erase_entry k s : next_node (erase_entry k s) = next_node s.
Proof. unfold erase_entry. by destruct (lru_map s !! k). Qed.

Lemma inv_erase_entry k s : shard_inv s -> shard_inv (erase_entry k s).
Proof.
  intros [Hk Hi Hn Hf]. unfold erase_entry.
  destruct (lru_map s !! k) as [h|] eqn:Hm; split; simpl.
  - intros k'. destruct (decide (k = k')) as [<-|Hne].
    + rewrite !lookup_delete_eq. split; intros []; discriminate.
    + rewrite !lookup_delete_ne by done. apply Hk.
  - intros k' h'. rewrite elem_of_erase_node. simpl.
    destruct (decide (k = k')) as [<-|Hne].
    + rewrite lookup_delete_eq. split; [discriminate|].
      intros [Hh Hin]. apply Hi in Hin. congruence.
    + rewrite lookup_delete_ne by done. rewrite Hi. split; [|tauto].
      intros Hin. split; [|done]. intros ->.
      apply Hi in Hm. apply Hne.
      eapply handle_names_one_node; eauto.
  - by apply erase_node_handles.
  - intros h' k' [_ Hin]%elem_of_erase_node. eauto.
  - intros k'. destruct (decide (k = k')) as [<-|Hne].
    + rewrite lookup_delete_eq, Hm. split; intros []; discriminate.
    + rewrite lookup_delete_ne by done. apply Hk.
  - apply Hi.
  - done.
  - done.
Qed.

Lemma inv_cleanup_expired now s : shard_inv s -> shard_inv (cleanup_expired now s).
Proof.
  intros Hs. unfold cleanup_expired.
  induction (expired_keys now (entries s)) as [|k ks IH]; simpl; [done|].
  by apply inv_erase_entry.
Qed.

(** Under the invariant, popping the back node is erasing it by handle. *)
Lemma removelast_erase_node (l : list (nat * string)) h k :
  NoDup l.*1 -> last l = Some (h, k) -> removelast l = erase_node h l.
Proof.
  intros Hnd [l' ->]%last_Some. rewrite removelast_last.
  unfold erase_node. rewrite filter_app, filter_cons, filter_nil.
  rewrite decide_False by (simpl; tauto).
  rewrite app_nil_r. symmetry.
  rewrite fmap_app in Hnd. apply NoDup_app in Hnd as (_ & Hdis & _).
  induction l' as [|[h' k'] l' IH]; [done|].
  rewrite filter_cons. case_decide as Hd; simpl in *.
  - f_equal. apply IH. intros x Hx. apply Hdis. by right.
  - assert (h' = h) as -> by (try apply dec_stable in Hd; done).
    exfalso. apply (Hdis h); left.
Qed.

Lemma evict_lru_cases s :
  shard_inv s ->
  (evict_lru s = s /\ Z.of_nat (size (entries s)) < MAX_ENTRIES_PER_SHARD)
  \/ exists h oldest,
       last (lru_list s) = Some (h, oldest)
       /\ MAX_ENTRIES_PER_SHARD <= Z.of_nat (size (entries s))
       /\ is_Some (entries s !! oldest)
       /\ evict_lru s =
          {| entries := entries (erase_entry oldest s);
             lru_list := lru_list (erase_entry oldest s);
             lru_map := lru_map (erase_entry oldest s);
             next_node := next_node s; shard_hits := shard_hits s;
             misses := misses s; evictions := wrap64 (evictions s + 1) |}.
Proof.
  intros [Hk Hi Hn Hf]. unfold evict_lru.
  destruct (MAX_ENTRIES_PER_SHARD <=? Z.of_nat (size (entries s))) eqn:Hfull.
  - apply Z.leb_le in Hfull. right.
    destruct (last (lru_list s)) as [[h oldest]|] eqn:Hlast.
    + exists h, oldest.
      assert (Hin : (h, oldest) ∈ lru_list s) by by apply last_Some_elem_of.
      apply Hi in Hin.
      split; [done|]. split; [done|].
      split; [apply Hk; eauto|].
      unfold erase_entry. rewrite Hin. simpl.
      by rewrite (removelast_erase_node _ h oldest).
    + exfalso. apply last_None in Hlast.
      assert (Hsz : size (entries s) <> 0%nat)
        by (rewrite MAX_ENTRIES_PER_SHARD_eq in Hfull; lia).
      apply map_size_ne_0_lookup in Hsz as [k Hsome].
      apply Hk in Hsome as [h Hh]. apply Hi in Hh.
      rewrite Hlast in Hh. by apply elem_of_nil in Hh.
  - left. split; [done|]. apply Z.leb_gt in Hfull. done.
Qed.

Lemma inv_evict_lru s : shard_inv s -> shard_inv (evict_lru s).
Proof.
  intros Hs. destruct (evict_lru_cases s Hs) as [[-> _]|(h & o & _ & _ & _ & ->)];
    [done|].
  destruct (inv_erase_entry o s Hs) as [Hk Hi Hn Hf].
  split; simpl; try done.
  intros h' k' Hin. rewrite <- (next_node_erase_entry o). eauto.
Qed.

Lemma inv_touch_set d e s :
  shard_inv s -> shard_inv (touch_lru d (set_entry d e s)).
Proof.
  intros [Hk Hi Hn Hf]. unfold touch_lru, set_entry. split; simpl.
  - intros k. destruct (decide (d = k)) as [<-|Hne].
    + rewrite !lookup_insert_eq. split; eauto.
    + rewrite !lookup_insert_ne by done. apply Hk.
  - intros k h. rewrite elem_of_cons.
    destruct (decide (d = k)) as [<-|Hne].
    + rewrite lookup_insert_eq. split.
      * intros [= <-]. by left.
      * intros [[= -> ]|Hin]; [done|]. exfalso.
        destruct (lru_map s !! d) as [h0|] eqn:Hm.
        -- apply elem_of_erase_node in Hin as [Hh Hin]. simpl in Hh.
           apply Hi in Hin. congruence.
        -- apply Hi in Hin. congruence.
    + rewrite lookup_insert_ne by done. rewrite Hi. split.
      * intros Hin. right.
        destruct (lru_map s !! d) as [h0|] eqn:Hm; [|done].
        apply elem_of_erase_node. split; [|done]. simpl. intros ->.
        apply Hi in Hm. apply Hne.
        eapply handle_names_one_node; eauto.
      * intros [[= _ ?]|Hin]; [done|].
        destruct (lru_map s !! d); [|done].
        by apply elem_of_erase_node in Hin as [_ Hin].
  - apply NoDup_cons. split.
    + intros Hin. apply list_elem_of_fmap in Hin as ([h k] & Hh & Hin).
      simpl in Hh. subst h.
      assert (Hin' : (next_node s, k) ∈ lru_list s).
      { destruct (lru_map s !! d); [|done].
        by apply elem_of_erase_node in Hin as [_ Hin]. }
      apply Hf in Hin'. lia.
    + destruct (lru_map s !! d); [|done]. by apply erase_node_handles.
  - intros h k [[= -> _]|Hin]%elem_of_cons; [lia|].
    assert (Hin' : (h, k) ∈ lru_list s).
    { destruct (lru_map s !! d); [|done].
      by apply elem_of_erase_node in Hin as [_ Hin]. }
    apply Hf in Hin'. lia.
Qed.

Lemma inv_count_hit s : shard_inv s -> shard_inv (count_hit s).
Proof. intros [Hk Hi Hn Hf]. by split. Qed.

Lemma inv_count_miss s : shard_inv s -> shard_inv (count_miss s).
Proof. intros [Hk Hi Hn Hf]. by split. Qed.

Lemma touch_lru_count_hit d s :
  touch_lru d (count_hit s) = count_hit (touch_lru d s).
Proof. reflexivity. Qed.

Lemma inv_shard_get d t1 t2 s : shard_inv s -> shard_inv (shard_get d t1 t2 s).2.
Proof.
  intros Hs. unfold shard_get.
  pose proof (inv_cleanup_expired t1 s Hs) as Hc.
  destruct (entries (cleanup_expired t1 s) !! d) as [e|]; [|by apply inv_count_miss].
  destruct (is_valid t2 e); simpl.
  - rewrite touch_lru_count_hit. by apply inv_count_hit, inv_touch_set.
  - by apply inv_count_miss, inv_erase_entry.
Qed.

Lemma inv_shard_set d a ttl t1 t2 s :
  shard_inv s -> shard_inv (shard_set d a ttl t1 t2 s).
Proof.
  intros Hs. unfold shard_set.
  by apply inv_touch_set, inv_evict_lru, inv_cleanup_expired.
Qed.

(** ** The cache: every reachable state *)

Lemma size_erase_entry k s :
  (size (entries (erase_entry k s)) <= size (entries s))%nat.
Proof.
  rewrite entries_erase_entry, map_size_delete.
  destruct (entries s !! k); simpl; lia.
Qed.

Lemma size_cleanup_expired now s :
  (size (entries (cleanup_expired now s)) <= size (entries s))%nat.
Proof.
  unfold cleanup_expired.
  induction (expired_keys now (entries s)) as [|k ks IH]; simpl; [lia|].
  etransitivity; [apply size_erase_entry|exact IH].
Qed.

Lemma shard_ok_empty : shard_ok empty_shard.
Proof.
  split; [apply inv_empty|].
  rewrite MAX_ENTRIES_PER_SHARD_eq. simpl. rewrite map_size_empty. lia.
Qed.

Lemma shard_ok_cleanup now s : shard_ok s -> shard_ok (cleanup_expired now s).
Proof.
  intros [Hi Hs]. split; [by apply inv_cleanup_expired|].
  pose proof (size_cleanup_expired now s). lia.
Qed.

Lemma shard_ok_get d t1 t2 s : shard_ok s -> shard_ok (shard_get d t1 t2 s).2.
Proof.
  intros Hok. split; [apply inv_shard_get, Hok|].
  apply (shard_ok_cleanup t1) in Hok as [_ Hs]. unfold shard_get.
  destruct (entries (cleanup_expired t1 s) !! d) as [e|] eqn:He; [|done].
  destruct (is_valid t2 e); simpl.
  - rewrite map_size_insert_Some by eauto. done.
  - pose proof (size_erase_entry d (cleanup_expired t1 s)). lia.
Qed.

Lemma shard_ok_set d a ttl t1 t2 s : shard_ok s -> shard_ok (shard_set d a ttl t1 t2 s).
Proof.
  intros Hok. split; [apply inv_shard_set, Hok|].
  apply (shard_ok_cleanup t1) in Hok as [Hi Hs]. unfold shard_set. simpl.
  rewrite map_size_insert.
  destruct (evict_lru_cases _ Hi) as [[-> Hlt]|(h & o & _ & Hfull & Hsome & ->)].
  - destruct (entries (cleanup_expired t1 s) !! d); simpl; lia.
  - simpl. rewrite entries_erase_entry.
    rewrite map_size_delete_Some by done.
    rewrite MAX_ENTRIES_PER_SHARD_eq in *.
    destruct (delete o (entries (cleanup_expired t1 s)) !! d); simpl; lia.
Qed.

Section CacheFacts.
Context `{Host}.

Lemma get_shard_index_lt d : (get_shard_index d < 16)%nat.
Proof.
  unfold get_shard_index. change (NUM_SHARDS - 1) with (Z.ones 4).
  rewrite Z.land_ones by lia.
  pose proof (Z.mod_pos_bound (hash_string d) (2 ^ 4)). lia.
Qed.

(** A property of shards that holds of the empty shard and is kept by
    the three critical sections holds of every shard of every cache
    reached by public operations. *)
Lemma run_ops_invariant (P : Shard -> Prop) :
  P empty_shard ->
  (forall d t1 t2 s, P s -> P (shard_get d t1 t2 s).2) ->
  (forall d a ttl t1 t2 s, P s -> P (shard_set d a ttl t1 t2 s)) ->
  (forall now s, P s -> P (cleanup_expired now s)) ->
  forall ops, length (run_ops ops) = 16%nat /\ Forall P (run_ops ops).
Proof.
  intros Hempty Hget Hset Hclean ops. unfold run_ops.
  induction ops as [|o ops IH] using rev_ind.
  - simpl. split; [reflexivity|]. by apply Forall_replicate.
  - rewrite foldl_app. simpl. destruct IH as [Hlen Hall].
    set (c := foldl apply_op empty_cache ops) in *.
    assert (Hshard : forall i, (i < 16)%nat -> P (c !!! i)).
    { intros i Hi. eapply Forall_lookup_1; [exact Hall|].
      apply list_lookup_lookup_total_lt. lia. }
    destruct o as [d t1 t2|d a ttl t1 t2|ts]; simpl.
    + unfold cache_get.
      destruct (shard_get d t1 t2 (c !!! get_shard_index d)) as [r s] eqn:Hg.
      simpl. rewrite length_insert. split; [done|].
      apply Forall_insert; [done|].
      change s with (r, s).2. rewrite <- Hg.
      apply Hget, Hshard, get_shard_index_lt.
    + unfold cache_set. rewrite length_insert. split; [done|].
      apply Forall_insert; [done|].
      apply Hset, Hshard, get_shard_index_lt.
    + unfold cache_cleanup_expired. rewrite length_imap. split; [done|].
      apply Forall_lookup. intros i s. rewrite list_lookup_imap.
      intros Hs. apply fmap_Some in Hs as (s0 & Hs0 & ->).
      apply Hclean. eapply Forall_lookup_1; eauto.
Qed.

Lemma run_ops_ok ops :
  length (run_ops ops) = 16%nat /\ Forall shard_ok (run_ops ops).
Proof.
  apply run_ops_invariant.
  - apply shard_ok_empty.
  - intros. by apply shard_ok_get.
  - intros. by apply shard_ok_set.
  - intros. by apply shard_ok_cleanup.
Qed.

Lemma run_ops_shard_ok ops i : (i < 16)%nat -> shard_ok (run_ops ops !!! i).
Proof.
  intros Hi. destruct (run_ops_ok ops) as [Hlen Hall].
  eapply Forall_lookup_1; [exact Hall|].
  apply list_lookup_lookup_total_lt. lia.
Qed.
End CacheFacts.

(** ** The expire-sweep *)

Lemma entries_cleanup_expired now s :
  entries (cleanup_expired now s)
  = foldr delete (entries s) (expired_keys now (entries s)).
Proof.
  unfold cleanup_expired.
  induction (expired_keys now (entries s)) as [|k ks IH]; simpl; [done|].
  by rewrite entries_erase_entry, IH.
Qed.

Lemma elem_of_expired_keys now (m : gmap string CacheEntry) k :
  k ∈ expired_keys now m <-> exists e, m !! k = Some e /\ expiry e <= now.
Proof.
  unfold expired_keys. rewrite list_elem_of_fmap. split.
  - intros ([k' e] & -> & Hin). simpl.
    apply elem_of_map_to_list, map_lookup_filter_Some in Hin as [Hm He].
    eauto.
  - intros (e & Hm & He). exists (k, e). split; [done|].
    apply elem_of_map_to_list, map_lookup_filter_Some. done.
Qed.

(** The sweep keeps exactly the entries with [now < expiry]. *)
Lemma lookup_cleanup_expired now s k e :
  entries (cleanup_expired now s) !! k = Some e
  <-> entries s !! k = Some e /\ now < expiry e.
Proof.
  rewrite entries_cleanup_expired, lookup_foldr_delete_Some.
  rewrite elem_of_expired_keys. split.
  - intros [Hn Hm]. split; [done|].
    destruct (decide (now < expiry e)); [done|].
    exfalso. apply Hn. exists e. split; [done|lia].
  - intros [Hm He]. split; [|done]. intros (e' & Hm' & He').
    simplify_eq. lia.
Qed.

Lemma cleanup_expired_nothing now s :
  expired_keys now (entries s) = [] -> cleanup_expired now s = s.
Proof. unfold cleanup_expired. by intros ->. Qed.

Lemma evictions_cleanup_expired now s :
  evictions (cleanup_expired now s) = evictions s.
Proof.
  unfold cleanup_expired.
  induction (expired_keys now (entries s)) as [|k ks IH]; simpl; [done|].
  rewrite <- IH. unfold erase_entry. by destruct (lru_map _ !! k).
Qed.

(** ** [get] *)

Lemma shard_get_spec d t_sweep t_valid s :
  match shard_get d t_sweep t_valid s with
  | (Some a, s') =>
    exists e, entries s !! d = Some e /\ ip e = a
              /\ t_sweep < expiry e /\ t_valid < expiry e
  | (None, s') =>
    (entries s !! d = None
     \/ exists e, entries s !! d = Some e
                  /\ (expiry e <= t_sweep \/ expiry e <= t_valid))
    /\ entries s' !! d = None
  end
  /\ forall k e, entries (shard_get d t_sweep t_valid s).2 !! k = Some e ->
                 t_sweep < expiry e.
Proof.
  unfold shard_get.
  destruct (entries (cleanup_expired t_sweep s) !! d) as [e|] eqn:Hc.
  - pose proof Hc as Hc'. apply lookup_cleanup_expired in Hc' as [Hm He].
    unfold is_valid. destruct (t_valid <? expiry e) eqn:Hv; simpl.
    + apply Z.ltb_lt in Hv. split; [eauto 10|].
      intros k e'. destruct (decide (d = k)) as [<-|Hne].
      * rewrite lookup_insert_eq. intros [= <-]. done.
      * rewrite lookup_insert_ne by done.
        intros [_ ?]%lookup_cleanup_expired. done.
    + apply Z.ltb_ge in Hv. rewrite entries_erase_entry. split.
      * split; [eauto 10|]. apply lookup_delete_eq.
      * intros k e'. intros [_ Hk]%lookup_delete_Some.
        by apply lookup_cleanup_expired in Hk as [_ ?].
  - simpl. split.
    + split; [|done].
      destruct (entries s !! d) as [e|] eqn:Hm; [|by left]. right.
      exists e. split; [done|]. left.
      destruct (decide (t_sweep < expiry e)) as [Hlt|]; [|lia].
      assert (Some e = None); [|done].
      rewrite <- Hc. symmetry. by apply lookup_cleanup_expired.
    + intros k e [_ ?]%lookup_cleanup_expired. done.
Qed.

(** ** The cache: what [get] and [set] guarantee *)

Lemma structures_agree_of_inv s : shard_inv s -> structures_agree s.
Proof.
  intros [Hk Hi Hn Hf].
  assert (Hdom1 : (dom (entries s) : gset string) = dom (lru_map s)).
  { apply set_eq. intros k. rewrite !elem_of_dom. apply Hk. }
  assert (Hdom2 : (dom (lru_map s) : gset string) = list_to_set (lru_keys s)).
  { apply set_eq. intros k. rewrite elem_of_dom, elem_of_list_to_set.
    unfold lru_keys. rewrite list_elem_of_fmap. split.
    - intros [h Hh]. exists (h, k). split; [done|]. by apply Hi.
    - intros ([h k'] & -> & Hin). exists h. by apply Hi. }
  assert (Hnd : NoDup (lru_keys s)).
  { unfold lru_keys. apply NoDup_fmap_2_strong.
    - intros [h1 k1] [h2 k2] H1 H2. simpl. intros ->.
      apply Hi in H1, H2. congruence.
    - eapply NoDup_fmap_1. exact Hn. }
  assert (Hsz : size (lru_map s) = size (entries s)).
  { rewrite <- (size_dom (D := gset string) (lru_map s)).
    rewrite <- (size_dom (D := gset string) (entries s)). by rewrite Hdom1. }
  split; [done|]. split; [done|]. split; [done|].
  split; [|split; [done|]].
  - rewrite <- Hsz. rewrite <- (size_dom (D := gset string) (lru_map s)).
    rewrite Hdom2, size_list_to_set by done.
    unfold lru_keys. by rewrite length_fmap.
  - intros k Hin. unfold lru_keys in Hin.
    apply list_elem_of_fmap in Hin as ([h k'] & -> & Hin). simpl.
    exists h. split; [by apply Hi|]. split; [done|].
    intros k'' Hin'. eapply handle_names_one_node; eauto.
Qed.

Lemma erase_node_keys s d h :
  shard_inv s -> lru_map s !! d = Some h ->
  (erase_node h (lru_list s)).*2 = filter (fun k => k <> d) (lru_keys s).
Proof.
  intros [Hk Hi Hn Hf] Hm. unfold lru_keys, erase_node.
  assert (Hall : forall n, n ∈ lru_list s -> (n.1 <> h <-> n.2 <> d)).
  { intros [h' k'] Hin. simpl. split; intros Hne ->; apply Hne.
    - apply Hi in Hin. congruence.
    - apply Hi in Hm. eapply handle_names_one_node; eauto. }
  clear Hn Hf Hi Hk Hm.
  induction (lru_list s) as [|n l IH]; [done|].
  rewrite fmap_cons, !filter_cons.
  assert (Hn := Hall n ltac:(left)).
  assert (IH' := IH ltac:(intros n' Hn'; apply Hall; by right)).
  destruct (decide (n.1 <> h)), (decide (n.2 <> d)); try tauto.
  rewrite fmap_cons. by rewrite IH'.
Qed.

Lemma sum_sizes_bounded (l : list Shard) : forall st,
  Forall (fun s => Z.of_nat (size (entries s)) <= 512) l ->
  0 <= st_size st ->
  st_size st + 512 * Z.of_nat (length l) < 2 ^ 64 ->
  0 <= st_size
         (foldl (fun st s =>
             {| st_hits := wrap64 (st_hits st + shard_hits s);
                st_misses := wrap64 (st_misses st + misses s);
                st_evictions := wrap64 (st_evictions st + evictions s);
                st_size := wrap64 (st_size st + Z.of_nat (size (entries s))) |})
            st l)
    <= st_size st + 512 * Z.of_nat (length l).
Proof.
  induction l as [|s l IH]; intros st Hall H0 Hb; simpl; [lia|].
  apply Forall_cons in Hall as [Hs Hall]. simpl in Hs.
  simpl length in Hb.
  match goal with |- context [foldl _ ?st' l] => specialize (IH st' Hall) end.
  simpl in IH.
  rewrite (wrap64_small (st_size st + Z.of_nat (size (entries s)))) in IH by lia.
  rewrite (wrap64_small (st_size st + Z.of_nat (size (entries s)))) by lia.
  lia.
Qed.

(** In a full shard with nothing to sweep every [set] evicts, whether or
    not the name being set is already stored. *)
Lemma shard_set_full_evicts d a ttl t_sweep t_ctor s :
  shard_inv s ->
  expired_keys t_sweep (entries s) = [] ->
  MAX_ENTRIES_PER_SHARD <= Z.of_nat (size (entries s)) ->
  evictions (shard_set d a ttl t_sweep t_ctor s) = wrap64 (evictions s + 1).
Proof.
  intros Hinv Hex Hfull. unfold shard_set.
  rewrite (cleanup_expired_nothing _ _ Hex). simpl.
  destruct (evict_lru_cases s Hinv) as [[_ Hlt]|(h & o & _ & _ & _ & ->)];
    [lia|done].
Qed.

Section CacheClaims.
Context `{Host}.

(** C5.  After any sequence of public operations, in every shard the
    entries map, the LRU index and the LRU list hold the same keys, and
    the index sends every key to the handle of the list node holding
    it. *)
Theorem shard_structures_agree (ops : list cache_op) :
  length (run_ops ops) = 16%nat /\ Forall structures_agree (run_ops ops).
Proof.
  destruct (run_ops_ok ops) as [Hlen Hall]. split; [done|].
  eapply Forall_impl; [exact Hall|].
  intros s [Hs _]. by apply structures_agree_of_inv.
Qed.

Lemma evictions_shard_set d a ttl t1 t2 s :
  evictions (shard_set d a ttl t1 t2 s) = evictions s
  \/ evictions (shard_set d a ttl t1 t2 s) = wrap64 (evictions s + 1).
Proof.
  unfold shard_set. simpl. unfold evict_lru.
  rewrite <- (evictions_cleanup_expired t1 s).
  repeat case_match; simpl; auto.
Qed.

(** C4.  After any sequence of public operations every shard holds at
    most 512 entries and the cache at most 8192; a [set] bumps the
    eviction counter of a shard at most once. *)
Theorem shard_size_bounded (ops : list cache_op) :
  Forall (fun s => Z.of_nat (size (entries s)) <= 512) (run_ops ops)
  /\ st_size (get_stats (run_ops ops)) <= 8192
  /\ forall d a ttl t1 t2 i,
       let c := run_ops ops in
       let c' := cache_set d a ttl t1 t2 c in
       evictions (c' !!! i) = evictions (c !!! i)
       \/ evictions (c' !!! i) = wrap64 (evictions (c !!! i) + 1).
Proof.
  destruct (run_ops_ok ops) as [Hlen Hall].
  assert (Hsz : Forall (fun s => Z.of_nat (size (entries s)) <= 512) (run_ops ops)).
  { eapply Forall_impl; [exact Hall|]. intros s [_ Hs].
    by rewrite MAX_ENTRIES_PER_SHARD_eq in Hs. }
  split; [done|]. split.
  - unfold get_stats.
    pose proof (sum_sizes_bounded (run_ops ops)
                  {| st_hits := 0; st_misses := 0; st_evictions := 0;
                     st_size := 0 |} Hsz) as Hsum.
    rewrite Hlen in Hsum. simpl in Hsum. lia.
  - intros d a ttl t1 t2 i c c'. subst c c'. unfold cache_set.
    destruct (decide (get_shard_index d = i)) as [<-|Hne].
    + rewrite list_lookup_total_insert_eq
        by (rewrite Hlen; apply get_shard_index_lt).
      apply evictions_shard_set.
    + rewrite list_lookup_total_insert_ne by done. by left.
Qed.

(** C3.  After any sequence of public operations, [get] returns an
    address only for an entry that was present and whose expiry lies
    after both clock reads of the call; when it returns none the name
    was absent or expired and is no longer in the shard; and no entry
    left in the shard has expired at the time of the sweep. *)
Theorem cache_get_never_stale (ops : list cache_op) d t_sweep t_valid :
  let c := run_ops ops in
  let s := c !!! get_shard_index d in
  let s' := (cache_get d t_sweep t_valid c).2 !!! get_shard_index d in
  match (cache_get d t_sweep t_valid c).1 with
  | Some a =>
    exists e, entries s !! d = Some e /\ ip e = a
              /\ t_sweep < expiry e /\ t_valid < expiry e
  | None =>
    (entries s !! d = None
     \/ exists e, entries s !! d = Some e
                  /\ (expiry e <= t_sweep \/ expiry e <= t_valid))
    /\ entries s' !! d = None
  end
  /\ forall k e, entries s' !! k = Some e -> t_sweep < expiry e.
Proof.
  intros c s s'. subst s'. unfold cache_get. fold s.
  destruct (run_ops_ok ops) as [Hlen _]. fold c in Hlen.
  pose proof (shard_get_spec d t_sweep t_valid s) as Hspec.
  destruct (shard_get d t_sweep t_valid s) as [r s1]. simpl in *.
  rewrite list_lookup_total_insert_eq
    by (rewrite Hlen; apply get_shard_index_lt).
  exact Hspec.
Qed.

(** C1, as the code has it.  In a shard reached by public operations
    that holds [d], has no expired entry when [set] sweeps it and is
    below [MAX_ENTRIES_PER_SHARD], [set(d, ip, ttl)] evicts nothing and
    leaves the number of entries and the three counters as they were;
    it replaces the entry of [d] by a fresh one (new address, new
    expiry, hit count zero) and moves [d] to the front of the recency
    list, and it leaves the other shards alone. *)
Theorem cache_set_overwrite (ops : list cache_op) d a ttl t_sweep t_ctor :
  let c := run_ops ops in
  let i := get_shard_index d in
  let s := c !!! i in
  let c' := cache_set d a ttl t_sweep t_ctor c in
  let s' := c' !!! i in
  is_Some (entries s !! d) ->
  expired_keys t_sweep (entries s) = [] ->
  Z.of_nat (size (entries s)) < MAX_ENTRIES_PER_SHARD ->
  evictions s' = evictions s
  /\ size (entries s') = size (entries s)
  /\ entries s' = <[d := new_entry t_ctor a ttl]> (entries s)
  /\ lru_keys s' = d :: filter (fun k => k <> d) (lru_keys s)
  /\ shard_hits s' = shard_hits s /\ misses s' = misses s
  /\ forall j, j <> i -> c' !!! j = c !!! j.
Proof.
  intros c i s c' s' Hd Hex Hsz. subst s' c'. unfold cache_set. fold i s.
  destruct (run_ops_ok ops) as [Hlen _]. fold c in Hlen.
  pose proof (run_ops_shard_ok ops i (get_shard_index_lt d)) as [Hinv _].
  fold c s in Hinv.
  rewrite list_lookup_total_insert_eq by (rewrite Hlen; apply get_shard_index_lt).
  unfold shard_set. rewrite (cleanup_expired_nothing _ _ Hex).
  assert (Hev : evict_lru s = s).
  { unfold evict_lru.
    destruct (MAX_ENTRIES_PER_SHARD <=? Z.of_nat (size (entries s))) eqn:Hf;
      [|done].
    apply Z.leb_le in Hf. lia. }
  rewrite Hev. simpl.
  split; [done|]. split; [by apply map_size_insert_Some|].
  split; [done|]. split.
  - apply (inv_keys s Hinv) in Hd as [h Hh].
    unfold lru_keys at 1. unfold touch_lru, set_entry. simpl.
    rewrite Hh. f_equal. by apply erase_node_keys.
  - split; [done|]. split; [done|].
    intros j Hj. by apply list_lookup_total_insert_ne.
Qed.
End CacheClaims.

Lemma cache_set_overwrite_witness :
  let c := @run_ops little_endian_host
             [OpSet "example.com" "93.184.216.34" 300 0 0] in
  let c' := @cache_set little_endian_host
              "example.com" "93.184.216.35" 60 1000 1000 c in
  is_Some (entries (c !!! 0%nat) !! "example.com")
  /\ evictions (c' !!! 0%nat) = evictions (c !!! 0%nat)
  /\ size (entries (c' !!! 0%nat)) = size (entries (c !!! 0%nat))
  /\ lru_keys (c' !!! 0%nat) = ["example.com"].
Proof.
  intros c c'.
  assert (Hd : is_Some (entries (c !!! 0%nat) !! "example.com"))
    by (vm_compute; eauto).
  destruct (@cache_set_overwrite little_endian_host
              [OpSet "example.com" "93.184.216.34" 300 0 0]
              "example.com" "93.184.216.35" 60 1000 1000)
    as (Hev & Hsz & _ & Hkeys & _).
  - exact Hd.
  - vm_compute. reflexivity.
  - vm_compute. reflexivity.
  - split; [exact Hd|]. split; [exact Hev|]. split; [exact Hsz|].
    vm_compute. reflexivity.
Defined.

(** C1, as stated, fails: in a full shard a second, identical [set] of
    the name just stored evicts the least recently used name; the shard
    drops from 512 to 511 entries and the eviction counter goes up.  And
    below capacity the sweep at the head of [set] removes a neighbour
    that has expired: two seconds on, overwriting the long-lived name
    takes the shard from two entries to one. *)
Lemma shard_set_overwrite_counterexample :
  (let d := test_domain 511 in
   let s := shard_set d "192.168.1.1" 300 0 0 (filled_shard 511) in
   let s' := shard_set d "192.168.1.1" 300 0 0 s in
   is_Some (entries s !! d)
   /\ expired_keys 0 (entries s) = []
   /\ size (entries s) = 512%nat /\ size (entries s') = 511%nat
   /\ evictions s = 0 /\ evictions s' = 1
   /\ is_Some (entries s !! test_domain 0)
   /\ entries s' !! test_domain 0 = None)
  /\ (let s := ttl_test_shard in
      let s' := shard_set "long-ttl.com" "10.0.0.2" 300
                  (2 * TICKS_PER_SECOND) (2 * TICKS_PER_SECOND) s in
      is_Some (entries s !! "long-ttl.com")
      /\ size (entries s) = 2%nat /\ size (entries s') = 1%nat
      /\ evictions s' = evictions s).
Proof.
  split.
  - vm_compute. repeat split; eauto.
  - vm_compute. repeat split; eauto.
Qed.

(** ** The scenarios of [test_cache.cpp] *)

(** Six hundred names in one shard: 512 stay, 88 are evicted, the oldest
    is gone and the newest is there. *)
Example lru_eviction_scenario :
  let s := filled_shard 600 in
  size (entries s) = 512%nat /\ evictions s = 88
  /\ (shard_get (test_domain 0) 0 0 s).1 = None
  /\ (shard_get (test_domain 599) 0 0 s).1 = Some "192.168.1.1"%string.
Proof. vm_compute. repeat split. Qed.

(** TTL expiry: both names are found at once; two seconds later only the
    long-lived one is. *)
Example ttl_expiration_scenario :
  (shard_get "short-ttl.com" 0 0 ttl_test_shard).1 = Some "10.0.0.1"%string
  /\ (shard_get "long-ttl.com" 0 0 ttl_test_shard).1 = Some "10.0.0.2"%string
  /\ (shard_get "short-ttl.com" (2 * TICKS_PER_SECOND) (2 * TICKS_PER_SECOND)
        ttl_test_shard).1 = None
  /\ (shard_get "long-ttl.com" (2 * TICKS_PER_SECOND) (2 * TICKS_PER_SECOND)
        ttl_test_shard).1 = Some "10.0.0.2"%string.
Proof. vm_compute. repeat split. Qed.

(** A name read after its insertion survives the next 510 insertions,
    the two names inserted with it do not. *)
Example lru_order_scenario :
  let s0 := shard_set "lru3.com" "3.3.3.3" 300 0 0
              (shard_set "lru2.com" "2.2.2.2" 300 0 0
                 (shard_set "lru1.com" "1.1.1.1" 300 0 0 empty_shard)) in
  let s1 := (shard_get "lru1.com" 0 0 s0).2 in
  let s2 := foldl (fun s i => shard_set (test_domain i) "192.168.1.1" 300 0 0 s)
                  s1 (seq 0 511) in
  (shard_get "lru1.com" 0 0 s2).1 = Some "1.1.1.1"%string
  /\ (shard_get "lru2.com" 0 0 s2).1 = None
  /\ (shard_get "lru3.com" 0 0 s2).1 = None.
Proof. vm_compute. repeat split. Qed.

(* ================================================================== *)
(** * Part III: further properties of the code *)

(** ** The decoder on names without pointers *)

Lemma read_in_object data i :
  0 <= i < Z.of_nat (length data) -> exists c, read data i = Some c.
Proof.
  intros Hi. unfold read.
  destruct (i <? 0) eqn:Hneg; [apply Z.ltb_lt in Hneg; lia|].
  destruct (lookup_lt_is_Some_2 data (Z.to_nat i)) as [c Hc]; [lia|]. eauto.
Qed.

Lemma read_range_in_object data i n :
  0 <= i -> 0 <= n -> i + n <= Z.of_nat (length data) ->
  exists l, read_range data i n = Some l.
Proof.
  intros Hi Hn Hfit. unfold read_range.
  destruct (i <? 0) eqn:Hneg; [apply Z.ltb_lt in Hneg; lia|].
  rewrite length_take, length_drop. simpl.
  replace (Z.of_nat (Z.to_nat n `min` (length data - Z.to_nat i)) =? n) with true
    by (symmetry; apply Z.eqb_eq; lia).
  simpl. eauto.
Qed.

Lemma parse_loop_S (fuel : nat) data len s :
  parse_loop (S fuel) data len s
  = match parse_step data len s with
    | Next s' => parse_loop fuel data len s'
    | Done k name s' => Returned k name s'
    | Fault s' => Faulted s'
    end.
Proof. reflexivity. Qed.

Lemma parse_loop_plain data len (n : nat) :
  len <= Z.of_nat (length data) -> len < 2 ^ 63 ->
  forall s,
  0 <= ps_offset s -> ps_jumped s = false ->
  Forall (fun i => 0 <= i < len) (ps_reads s) ->
  Z.of_nat (length data) - ps_offset s < Z.of_nat n ->
  first_pointer_from n data len (ps_offset s) = None ->
  exists k name s',
    parse_loop (S n) data len s = Returned k name s'
    /\ ps_jumped s' = false
    /\ Forall (fun i => 0 <= i < len) (ps_reads s').
Proof.
  intros Hobj Hlen. induction n as [|n IH]; intros s Ho Hj Hreads Hfuel Hw.
  - rewrite parse_loop_S. unfold parse_step.
    destruct (ps_offset s <? len) eqn:Hlt; [apply Z.ltb_lt in Hlt; lia|].
    unfold leave_loop. rewrite Hj. eauto 10.
  - simpl in Hw. rewrite parse_loop_S. unfold parse_step.
    destruct (ps_offset s <? len) eqn:Hlt.
    2:{ unfold leave_loop. rewrite Hj. eauto 10. }
    apply Z.ltb_lt in Hlt.
    destruct (read_in_object data (ps_offset s)) as [c Hc]; [lia|].
    rewrite Hc in Hw |- *. pose proof (u8_range c) as Hu.
    assert (Hreads1 : Forall (fun i => 0 <= i < len)
                        (ps_reads (log_reads [ps_offset s] s))).
    { simpl. constructor; [lia|done]. }
    destruct (u8 c =? 0) eqn:Hz.
    { unfold leave_loop. simpl. rewrite Hj. eauto 10. }
    apply Z.eqb_neq in Hz.
    destruct (is_pointer (u8 c)); [discriminate|].
    rewrite !(wrap64_small (ps_offset s + 1)) by lia.
    rewrite wrap64_small by lia.
    destruct (ps_offset s + 1 + u8 c >? len) eqn:Hov; [eauto 10|].
    rewrite Z.gtb_ltb in Hov. apply Z.ltb_ge in Hov.
    destruct (read_range_in_object data (ps_offset s + 1) (u8 c)) as [bytes Hb];
      [lia|lia|lia|].
    rewrite Hb. cbv beta iota.
    match goal with |- context [parse_loop (S n) data len ?s1] =>
      destruct (IH s1) as (k & name & s' & Hr & Hj' & Hreads') end.
    + simpl. lia.
    + simpl. done.
    + simpl. apply Forall_app. split; [|done].
      apply Forall_rev, Forall_fmap, Forall_forall.
      intros i Hi%elem_of_seq. simpl. lia.
    + simpl. lia.
    + simpl. done.
    + exists k, name, s'. done.
Qed.

(** X1.  On a name that holds no compression pointer the decoder returns,
    follows no jump, and dereferences [data] only below [len], provided
    [len] does not exceed the buffer. *)
Theorem parse_domain_name_plain_in_bounds data len offset (fuel : nat) :
  0 <= offset ->
  len <= Z.of_nat (length data) -> len < 2 ^ 63 ->
  (length data + 2 <= fuel)%nat ->
  first_pointer data len offset = None ->
  exists k name s,
    parse_domain_name fuel data len offset = Returned k name s
    /\ ps_jumped s = false
    /\ Forall (fun i => 0 <= i < len) (ps_reads s).
Proof.
  intros Ho Hobj Hlen Hfuel Hw.
  destruct (parse_loop_plain data len (S (length data)) Hobj Hlen
              (parse_init offset)) as (k & name & s & Hr & Hj & Hreads);
    simpl; auto; [lia|].
  exists k, name, s. split; [|done].
  unfold parse_domain_name.
  replace fuel with (S (S (length data)) + (fuel - S (S (length data))))%nat by lia.
  by apply parse_loop_more_fuel.
Qed.

Lemma parse_domain_name_plain_in_bounds_witness :
  first_pointer example_query 33 12 = None
  /\ exists k name s,
       parse_domain_name 40 example_query 33 12 = Returned k name s
       /\ ps_jumped s = false
       /\ Forall (fun i => 0 <= i < 33) (ps_reads s).
Proof.
  split; [vm_compute; reflexivity|].
  apply (parse_domain_name_plain_in_bounds example_query 33 12 40).
  - lia.
  - vm_compute. discriminate.
  - lia.
  - vm_compute. lia.
  - vm_compute. reflexivity.
Defined.

(** ** The encoders: packet layout *)

Lemma encode_labels_app (fuel : nat) : forall iss buf,
  encode_labels fuel iss buf = buf ++ encode_labels fuel iss [].
Proof.
  induction fuel as [|fuel IH]; intros iss buf; simpl.
  - by rewrite app_nil_r.
  - destruct (getline iss) as [[label iss']|]; [|by rewrite app_nil_r].
    rewrite (IH iss' (buf ++ _)), (IH iss' (_ :: _)).
    by rewrite <- app_assoc.
Qed.

Lemma encode_domain_name_app domain buf :
  encode_domain_name domain buf = buf ++ encode_domain_name domain [].
Proof.
  unfold encode_domain_name. rewrite encode_labels_app.
  by rewrite <- app_assoc.
Qed.

Section LayoutFacts.
Context `{Host}.

Lemma store_u16_length v : length (store_u16 v) = 2%nat.
Proof. unfold store_u16. by destruct host_big_endian. Qed.

(** The octets of the packet after the id do not depend on the id. *)
Lemma answer_packet_split query_id domain ip_addr :
  answer_packet query_id domain ip_addr
  = store_u16 query_id ++ drop 2 (answer_packet 0 domain ip_addr).
Proof.
  unfold answer_packet, encode_question.
  rewrite (encode_domain_name_app domain (store_u16 query_id ++ _)).
  rewrite (encode_domain_name_app domain (store_u16 0 ++ _)).
  rewrite <- !app_assoc.
  rewrite (drop_app_length' (store_u16 0)) by (symmetry; apply store_u16_length).
  reflexivity.
Qed.

Lemma answer_packet_layout b0 b1 (labels : list string) ip_addr :
  Forall plain_label labels -> Forall dot_free labels ->
  answer_packet (load_u16 b0 b1) (join_labels labels) ip_addr
  = [b0; b1] ++ octets [129; 128; 0; 1; 0; 1; 0; 0; 0; 0]
      ++ wire_question labels 1 1
      ++ octets [192; 12; 0; 1; 0; 1; 0; 0; 1; 44; 0; 4]
      ++ match inet_aton ip_addr with Some addr => addr | None => [] end.
Proof.
  intros Hp Hd. unfold answer_packet, encode_question.
  rewrite encode_domain_name_join by done.
  rewrite store_load_u16, !store_u16_htons by lia.
  unfold wire_question. rewrite <- !app_assoc. reflexivity.
Qed.

(** X2.  The answer built for a name of plain, dot-free labels is, octet
    for octet: the two id octets of the query, flags 0x8180, counts
    1/1/0/0, the question (name, type 1, class 1), and one record with
    owner pointer [C0 0C], type 1, class 1, TTL 300, length 4 and the
    octets [inet_aton] yields; when [inet_aton] rejects the address the
    record announces four octets and carries none. *)
Theorem build_dns_response_layout b0 b1 (labels : list string) ip_addr :
  Forall plain_label labels -> Forall dot_free labels ->
  build_dns_response (load_u16 b0 b1) (join_labels labels) ip_addr
  = [b0; b1] ++ octets [129; 128; 0; 1; 0; 1; 0; 0; 0; 0]
      ++ wire_question labels 1 1
      ++ octets [192; 12; 0; 1; 0; 1; 0; 0; 1; 44; 0; 4]
      ++ match inet_aton ip_addr with Some addr => addr | None => [] end.
Proof. intros Hp Hd. unfold build_dns_response. by apply answer_packet_layout. Qed.

(** X3.  An error reply is twelve octets: the id octets of the query,
    [0x81], [0x80 + rcode], and four zero counts (for an RCODE that fits
    its four bits). *)
Theorem build_error_response_layout b0 b1 rcode :
  0 <= rcode < 16 ->
  build_error_response (load_u16 b0 b1) rcode
  = [b0; b1; octet 129; octet (128 + rcode);
     octet 0; octet 0; octet 0; octet 0; octet 0; octet 0; octet 0; octet 0].
Proof.
  intros Hr. unfold build_error_response.
  rewrite store_load_u16.
  assert (Hor : Z.lor 33152 rcode = 33152 + rcode).
  { assert (Hk : rcode = Z.of_nat (Z.to_nat rcode)) by lia.
    rewrite Hk. assert (Hlt : (Z.to_nat rcode < 16)%nat) by lia.
    revert Hlt. generalize (Z.to_nat rcode). intros k Hk'.
    do 16 (destruct k as [|k]; [reflexivity|]). lia. }
  rewrite Hor, !store_u16_htons by lia.
  unfold be16. simpl.
  replace ((33152 + rcode) / 256) with 129
    by (apply Z.div_unique with (r := 128 + rcode); lia).
  change (0 / 256) with 0.
  do 3 f_equal. f_equal. apply octet_mod.
  replace (33152 + rcode) with (128 + rcode + 129 * 256) by lia.
  by rewrite Z.mod_add by lia.
Qed.

(** X4.  Looking up a name just registered yields the very packet
    [build_dns_response] builds for that name, address and query id: the
    pre-compiled path and the cache path answer with the same octets. *)
Theorem get_response_add_local_domain responses domain ip_addr query_id :
  get_response (add_local_domain domain ip_addr responses) domain query_id
  = Value (Some (build_dns_response query_id domain ip_addr)).
Proof.
  unfold get_response, add_local_domain, build_dns_response.
  rewrite lookup_insert_eq.
  assert (Hlen : (2 <= length (answer_packet 0 domain ip_addr))%nat).
  { rewrite answer_packet_split, length_app, store_u16_length. lia. }
  destruct (Z.of_nat (length (answer_packet 0 domain ip_addr)) <? 2) eqn:Hlt;
    [apply Z.ltb_lt in Hlt; lia|].
  by rewrite (answer_packet_split query_id).
Qed.
End LayoutFacts.

Lemma build_dns_response_layout_witness :
  @build_dns_response little_endian_host
     (@load_u16 little_endian_host (octet 18) (octet 52)) "www.example.com" "x"
  = octets [18; 52; 129; 128; 0; 1; 0; 1; 0; 0; 0; 0]
      ++ wire_question ["www"; "example"; "com"] 1 1
      ++ octets [192; 12; 0; 1; 0; 1; 0; 0; 1; 44; 0; 4].
Proof.
  rewrite <- (app_nil_r (octets [192; 12; 0; 1; 0; 1; 0; 0; 1; 44; 0; 4])).
  apply (@build_dns_response_layout little_endian_host (octet 18) (octet 52)
           ["www"; "example"; "com"] "x").
  - repeat constructor; vm_compute; lia.
  - repeat constructor.
Defined.

Lemma build_error_response_layout_witness :
  @build_error_response little_endian_host
     (@load_u16 little_endian_host (octet 18) (octet 52)) 2
  = octets [18; 52; 129; 130; 0; 0; 0; 0; 0; 0; 0; 0].
Proof.
  apply (@build_error_response_layout little_endian_host (octet 18) (octet 52) 2).
  lia.
Defined.

(** ** Decoding what the encoders emit *)

Section ParseBack.
Context `{Host}.

(** The decoder on the wire form of a question, wherever it lies. *)
Lemma parse_dns_question_wire (pre post : list ascii) (labels : list string)
      (qt qc len : Z) (fuel : nat) :
  labels <> [] -> Forall plain_label labels ->
  0 <= qt < 65536 -> 0 <= qc < 65536 ->
  (length labels < fuel)%nat ->
  Z.of_nat (length (pre ++ wire_question labels qt qc)) <= len < 2 ^ 64 ->
  parse_dns_question fuel (pre ++ wire_question labels qt qc ++ post) len
                     (Z.of_nat (length pre))
  = Value (Some ({| qname := join_labels labels; qtype := qt; qclass := qc |},
                 Z.of_nat (length (pre ++ wire_question labels qt qc)))).
Proof.
  intros Hne Hp Hqt Hqc Hfuel Hlen.
  unfold wire_question, wire_name in *.
  rewrite !length_app in Hlen. simpl in Hlen.
  set (body := concat (map wire_label labels)) in *.
  set (data := pre ++ ((body ++ [octet 0]) ++ be16 qt ++ be16 qc) ++ post).
  destruct (parse_loop_labels data len labels ltac:(lia) [] pre
              ([octet 0] ++ (be16 qt ++ be16 qc) ++ post)
              (fuel - length labels) (parse_init (Z.of_nat (length pre))))
    as (s2 & Hs2 & Hr2 & Ho2 & Hj2); auto.
  { subst data body. rewrite <- !app_assoc. reflexivity. }
  { fold body. lia. }
  fold body in Ho2. simpl in Hr2, Hj2.
  replace (length labels + (fuel - length labels))%nat with fuel in Hs2 by lia.
  unfold parse_dns_question, parse_domain_name. rewrite Hs2.
  destruct (fuel - length labels)%nat as [|k] eqn:Hk; [lia|].
  rewrite parse_loop_S. unfold parse_step.
  assert (Hlt : (ps_offset s2 <? len) = true) by (apply Z.ltb_lt; lia).
  rewrite Hlt.
  assert (Hrd : read data (ps_offset s2) = Some (octet 0)).
  { rewrite Ho2, <- length_app. subst data.
    rewrite <- !app_assoc. rewrite (app_assoc pre body). apply read_middle. }
  rewrite Hrd. change (u8 (octet 0) =? 0) with true. cbv iota.
  unfold leave_loop. simpl. rewrite Hj2. simpl.
  rewrite Hr2.
  assert (Hname : String.eqb (join_labels labels) EmptyString = false).
  { apply string_eqb_empty. pose proof (join_labels_length labels Hp).
    destruct labels; [done|]. simpl in *. lia. }
  rewrite Hname, Ho2. simpl orb.
  rewrite (wrap64_small (_ + 1)) by lia.
  rewrite wrap64_small by lia.
  assert (Hov : (Z.of_nat (length pre + length body) + 1 + 4 >? len) = false)
    by (rewrite Z.gtb_ltb; apply Z.ltb_ge; lia).
  rewrite Hov.
  assert (Hrr : read_range data (Z.of_nat (length pre + length body) + 1) 4
                = Some (be16 qt ++ be16 qc)).
  { replace (Z.of_nat (length pre + length body) + 1)
      with (Z.of_nat (length (pre ++ body ++ [octet 0])))
      by (rewrite !length_app; simpl; lia).
    subst data.
    replace (pre ++ ((body ++ [octet 0]) ++ be16 qt ++ be16 qc) ++ post)
      with ((pre ++ body ++ [octet 0]) ++ (be16 qt ++ be16 qc) ++ post)
      by (rewrite <- !app_assoc; reflexivity).
    apply (read_range_middle _ (be16 qt ++ be16 qc)). }
  rewrite Hrr. unfold be16. simpl app. cbv iota.
  rewrite !ntohs_load_u16, !be16_value by lia.
  do 3 f_equal. rewrite !length_app. simpl. lia.
Qed.

(** X5.  The server's own answer parses back: [parse_dns_header] reads
    the id of the query, flags 0x8180 and the counts 1/1/0/0, and
    [parse_dns_question] at offset 12 reads the name the answer was built
    for, type 1 and class 1, and stops where the answer record begins. *)
Theorem build_dns_response_parses_back b0 b1 (labels : list string) ip_addr
        (fuel : nat) :
  labels <> [] ->
  Forall plain_label labels -> Forall dot_free labels ->
  (length labels < fuel)%nat ->
  let response :=
    build_dns_response (load_u16 b0 b1) (join_labels labels) ip_addr in
  let len := Z.of_nat (length response) in
  len < 2 ^ 64 ->
  parse_dns_header response len
  = Value (Some {| id := load_u16 b0 b1; flags := 33152; qdcount := 1;
                   ancount := 1; nscount := 0; arcount := 0 |})
  /\ parse_dns_question fuel response len 12
     = Value (Some ({| qname := join_labels labels; qtype := 1; qclass := 1 |},
                    12 + Z.of_nat (length (wire_question labels 1 1)))).
Proof.
  intros Hne Hp Hd Hfuel response len Hlen. subst len response.
  unfold build_dns_response in *.
  rewrite answer_packet_layout in * by done.
  set (tail := octets [192; 12; 0; 1; 0; 1; 0; 0; 1; 44; 0; 4]
                 ++ match inet_aton ip_addr with Some a => a | None => [] end) in *.
  split.
  - unfold parse_dns_header.
    match goal with |- context [?x <? 12] =>
      assert (Hge : (x <? 12) = false) end.
    { apply Z.ltb_ge. rewrite !length_app. simpl. lia. }
    rewrite Hge. unfold read_range. simpl.
    rewrite !ntohs_load_u16, !u8_octet. reflexivity.
  - pose proof (parse_dns_question_wire
                  ([b0; b1] ++ octets [129; 128; 0; 1; 0; 1; 0; 0; 0; 0])
                  tail labels 1 1
                  (Z.of_nat (length ([b0; b1]
                      ++ octets [129; 128; 0; 1; 0; 1; 0; 0; 0; 0]
                      ++ wire_question labels 1 1 ++ tail)))
                  fuel Hne Hp ltac:(lia) ltac:(lia) Hfuel) as Hq.
    refine (eq_trans (Hq _) _).
    + split; [|exact Hlen].
      rewrite !length_app. simpl. lia.
    + do 3 f_equal. rewrite !length_app. simpl. lia.
Qed.
End ParseBack.

Lemma build_dns_response_parses_back_witness :
  let response := @build_dns_response stub_host 13330
                    "www.example.com" "203.0.113.5" in
  @parse_dns_header stub_host response 49
  = Value (Some {| id := 13330; flags := 33152; qdcount := 1;
                   ancount := 1; nscount := 0; arcount := 0 |})
  /\ @parse_dns_question stub_host 4 response 49 12
     = Value (Some ({| qname := "www.example.com"; qtype := 1; qclass := 1 |},
                    33)).
Proof.
  apply (@build_dns_response_parses_back stub_host (octet 18) (octet 52)
           ["www"; "example"; "com"] "203.0.113.5" 4).
  - discriminate.
  - repeat constructor; vm_compute; lia.
  - repeat constructor.
  - simpl. lia.
  - vm_compute. reflexivity.
Defined.

(** ** The cache: composition of [set] and [get] *)

Lemma shard_get_after_set d a ttl t1 t2 t3 t4 s :
  (shard_get d t3 t4 (shard_set d a ttl t1 t2 s)).1
  = if (t3 <? t2 + ttl * TICKS_PER_SECOND) && (t4 <? t2 + ttl * TICKS_PER_SECOND)
    then Some a else None.
Proof.
  set (s1 := shard_set d a ttl t1 t2 s).
  assert (Hs1 : entries s1 !! d = Some (new_entry t2 a ttl)).
  { unfold s1, shard_set. simpl. apply lookup_insert_eq. }
  unfold shard_get.
  destruct (entries (cleanup_expired t3 s1) !! d) as [e|] eqn:Hc.
  - apply lookup_cleanup_expired in Hc as [Hm He].
    rewrite Hs1 in Hm. injection Hm as <-. simpl in He.
    apply Z.ltb_lt in He. rewrite He. simpl.
    unfold is_valid. simpl. by destruct (t4 <? _).
  - destruct (t3 <? t2 + ttl * TICKS_PER_SECOND) eqn:He; [|done].
    apply Z.ltb_lt in He. exfalso.
    assert (Hsome : entries (cleanup_expired t3 s1) !! d
                    = Some (new_entry t2 a ttl))
      by (apply lookup_cleanup_expired; done).
    congruence.
Qed.

Lemma cache_get_after_set `{Host} d a ttl t1 t2 t3 t4 (shards : list Shard) :
  length shards = 16%nat ->
  (cache_get d t3 t4 (cache_set d a ttl t1 t2 shards)).1
  = if (t3 <? t2 + ttl * TICKS_PER_SECOND) && (t4 <? t2 + ttl * TICKS_PER_SECOND)
    then Some a else None.
Proof.
  intros Hlen. unfold cache_get, cache_set.
  rewrite list_lookup_total_insert_eq
    by (rewrite Hlen; apply get_shard_index_lt).
  pose proof (shard_get_after_set d a ttl t1 t2 t3 t4
                (shards !!! get_shard_index d)) as Hg.
  destruct (shard_get d t3 t4 _) as [r s']. exact Hg.
Qed.

(** X6.  In any cache reached by public operations, a [get] that follows
    a [set] of the same name returns the address just stored exactly when
    both clock reads of the [get] lie before the expiry the [set]
    computed (its own clock read plus the TTL); otherwise it returns
    none.  A TTL of zero is therefore never served back. *)
Theorem cache_get_after_cache_set `{Host} (ops : list cache_op)
        d a ttl t1 t2 t3 t4 :
  (cache_get d t3 t4 (cache_set d a ttl t1 t2 (run_ops ops))).1
  = if (t3 <? t2 + ttl * TICKS_PER_SECOND) && (t4 <? t2 + ttl * TICKS_PER_SECOND)
    then Some a else None.
Proof.
  apply cache_get_after_set. apply run_ops_ok.
Qed.

(** ** The cache: counters *)

Lemma counters_erase_entry k s :
  shard_hits (erase_entry k s) = shard_hits s
  /\ misses (erase_entry k s) = misses s
  /\ evictions (erase_entry k s) = evictions s.
Proof. unfold erase_entry. by destruct (lru_map s !! k). Qed.

Lemma counters_cleanup_expired now s :
  shard_hits (cleanup_expired now s) = shard_hits s
  /\ misses (cleanup_expired now s) = misses s
  /\ evictions (cleanup_expired now s) = evictions s.
Proof.
  unfold cleanup_expired.
  induction (expired_keys now (entries s)) as [|k ks IH]; simpl; [done|].
  destruct (counters_erase_entry k (foldr erase_entry s ks)) as (-> & -> & ->).
  exact IH.
Qed.

Lemma wrap64_succ_l a b : wrap64 (wrap64 (a + 1) + b) = wrap64 (a + b + 1).
Proof.
  unfold wrap64. rewrite Z.add_mod_idemp_l by lia. f_equal. lia.
Qed.

Lemma wrap64_succ_r a b : wrap64 (a + wrap64 (b + 1)) = wrap64 (a + b + 1).
Proof.
  unfold wrap64. rewrite Z.add_mod_idemp_r by lia. f_equal. lia.
Qed.

(** A [get] counts as a hit exactly when it returns an address, and as a
    miss otherwise; it never counts an eviction. *)
Lemma counters_shard_get d t1 t2 s :
  let r := shard_get d t1 t2 s in
  evictions r.2 = evictions s
  /\ match r.1 with
     | Some _ => shard_hits r.2 = wrap64 (shard_hits s + 1)
                 /\ misses r.2 = misses s
     | None => shard_hits r.2 = shard_hits s
               /\ misses r.2 = wrap64 (misses s + 1)
     end.
Proof.
  destruct (counters_cleanup_expired t1 s) as (Hh & Hm & He).
  unfold shard_get.
  destruct (entries (cleanup_expired t1 s) !! d) as [e|]; simpl.
  - destruct (is_valid t2 e); simpl.
    + rewrite Hh, Hm, He. done.
    + destruct (counters_erase_entry d (cleanup_expired t1 s)) as (-> & -> & ->).
      rewrite Hh, Hm, He. done.
  - rewrite Hh, Hm, He. done.
Qed.

Lemma counters_shard_set d a ttl t1 t2 s :
  shard_hits (shard_set d a ttl t1 t2 s) = shard_hits s
  /\ misses (shard_set d a ttl t1 t2 s) = misses s.
Proof.
  destruct (counters_cleanup_expired t1 s) as (Hh & Hm & _).
  unfold shard_set. simpl. unfold evict_lru.
  repeat case_match; simpl; rewrite ?Hh, ?Hm; done.
Qed.

Section CounterFacts.
Context `{Host}.

Lemma gets_on_snoc i ops o :
  gets_on i (ops ++ [o])
  = (gets_on i ops
     + match o with
       | OpGet d _ _ => if Nat.eqb (get_shard_index d) i then 1 else 0
       | _ => 0
       end)%nat.
Proof.
  induction ops as [|o' ops IH]; simpl.
  - destruct o; simpl; try done; destruct (Nat.eqb _ _); done.
  - destruct o'; rewrite IH; try done.
    destruct (Nat.eqb (get_shard_index domain) i); lia.
Qed.

(** X7.  In every shard, the hit counter plus the miss counter equals
    the number of [get] calls routed to that shard (counters are 64-bit,
    so modulo 2^64); [set] and [cleanup_expired] move neither. *)
Theorem hits_plus_misses_count_gets (ops : list cache_op) (i : nat) :
  (i < 16)%nat ->
  let s := run_ops ops !!! i in
  wrap64 (shard_hits s + misses s) = wrap64 (Z.of_nat (gets_on i ops)).
Proof.
  intros Hi. simpl. induction ops as [|o ops IH] using rev_ind.
  - change (run_ops []) with (replicate (Z.to_nat NUM_SHARDS) empty_shard).
    rewrite lookup_total_replicate_2
      by (change (Z.to_nat NUM_SHARDS) with 16%nat; lia).
    reflexivity.
  - rewrite gets_on_snoc. unfold run_ops in *. rewrite foldl_app. simpl.
    destruct (run_ops_ok ops) as [Hlen _]. unfold run_ops in Hlen.
    set (c := foldl apply_op empty_cache ops) in *.
    destruct o as [d t1 t2|d a ttl t1 t2|ts]; simpl.
    + unfold cache_get.
      pose proof (counters_shard_get d t1 t2 (c !!! get_shard_index d)) as Hc.
      destruct (shard_get d t1 t2 (c !!! get_shard_index d)) as [r s'].
      simpl in *.
      destruct (Nat.eqb_spec (get_shard_index d) i) as [<-|Hne].
      * rewrite list_lookup_total_insert_eq
          by (rewrite Hlen; apply get_shard_index_lt).
        destruct Hc as [_ Hc].
        replace (Z.of_nat (gets_on (get_shard_index d) ops + 1))
          with (Z.of_nat (gets_on (get_shard_index d) ops) + 1) by lia.
        unfold wrap64 in IH |- *.
        rewrite <- (Z.add_mod_idemp_l (Z.of_nat _)), <- IH by lia.
        rewrite Z.add_mod_idemp_l by lia.
        destruct r; destruct Hc as [-> ->].
        -- apply wrap64_succ_l.
        -- apply wrap64_succ_r.
      * rewrite list_lookup_total_insert_ne by done.
        rewrite Nat.add_0_r. exact IH.
    + unfold cache_set. rewrite Nat.add_0_r.
      destruct (decide (get_shard_index d = i)) as [<-|Hne].
      * rewrite list_lookup_total_insert_eq
          by (rewrite Hlen; apply get_shard_index_lt).
        destruct (counters_shard_set d a ttl t1 t2 (c !!! get_shard_index d))
          as [-> ->].
        exact IH.
      * rewrite list_lookup_total_insert_ne by done. exact IH.
    + rewrite Nat.add_0_r. unfold cache_cleanup_expired.
      rewrite list_lookup_total_alt, list_lookup_imap.
      rewrite (list_lookup_lookup_total_lt c i) by lia. simpl.
      destruct (counters_cleanup_expired (ts i) (c !!! i)) as (-> & -> & _).
      exact IH.
Qed.
End CounterFacts.

Lemma hits_plus_misses_count_gets_witness :
  let ops := [OpSet "a.com" "1.1.1.1" 300 0 0;
              OpGet "a.com" 1 1; OpGet "b.com" 2 2] in
  let s := @run_ops little_endian_host ops !!! 0%nat in
  wrap64 (shard_hits s + misses s) = 2.
Proof.
  apply (@hits_plus_misses_count_gets little_endian_host
           [OpSet "a.com" "1.1.1.1" 300 0 0;
            OpGet "a.com" 1 1; OpGet "b.com" 2 2] 0).
  lia.
Defined.

(** ** The cache: recency order *)

Lemma filter_ext_in {A} (P Q : A -> Prop) `{!forall x, Decision (P x)}
      `{!forall x, Decision (Q x)} (l : list A) :
  (forall x, x ∈ l -> (P x <-> Q x)) -> filter P l = filter Q l.
Proof.
  induction l as [|x l IH]; intros Hall; [done|].
  rewrite !filter_cons.
  pose proof (Hall x ltac:(left)) as Hx.
  rewrite IH by (intros y Hy; apply Hall; by right).
  destruct (decide (P x)), (decide (Q x)); tauto.
Qed.

Lemma filter_all {A} (P : A -> Prop) `{!forall x, Decision (P x)} (l : list A) :
  (forall x, x ∈ l -> P x) -> filter P l = l.
Proof.
  induction l as [|x l IH]; intros Hall; [done|].
  rewrite filter_cons, decide_True by (apply Hall; left).
  f_equal. apply IH. intros y Hy. apply Hall. by right.
Qed.

(** Erasing a name takes exactly the nodes holding it out of the list. *)
Lemma lru_list_erase_entry k s :
  shard_inv s ->
  lru_list (erase_entry k s) = filter (fun n => n.2 <> k) (lru_list s).
Proof.
  intros [Hk Hi Hn Hf]. unfold erase_entry.
  destruct (lru_map s !! k) as [h|] eqn:Hm; simpl.
  - unfold erase_node. apply filter_ext_in.
    intros [h' k'] Hin. simpl. split; intros Hne ->; apply Hne.
    + apply Hi in Hin. congruence.
    + apply Hi in Hm. eapply handle_names_one_node; eauto.
  - symmetry. apply filter_all. intros [h' k'] Hin. simpl. intros ->.
    apply Hi in Hin. congruence.
Qed.

Lemma inv_foldr_erase_entry ks s :
  shard_inv s -> shard_inv (foldr erase_entry s ks).
Proof.
  intros Hs. induction ks as [|k ks IH]; simpl; [done|].
  by apply inv_erase_entry.
Qed.

Lemma lru_list_foldr_erase_entry ks s :
  shard_inv s ->
  lru_list (foldr erase_entry s ks) = filter (fun n => n.2 ∉ ks) (lru_list s).
Proof.
  intros Hs. induction ks as [|k ks IH]; simpl.
  - symmetry. apply filter_all. intros n _. apply not_elem_of_nil.
  - rewrite lru_list_erase_entry by by apply inv_foldr_erase_entry.
    rewrite IH, list_filter_filter. apply filter_ext_in.
    intros n _. rewrite not_elem_of_cons. tauto.
Qed.

Lemma filter_fmap_snd (P : string -> Prop) `{!forall k, Decision (P k)}
      (l : list (nat * string)) :
  (filter (fun n => P n.2) l).*2 = filter P l.*2.
Proof.
  induction l as [|n l IH]; [done|].
  rewrite fmap_cons, !filter_cons.
  destruct (decide (P n.2)); [rewrite fmap_cons|]; by rewrite IH.
Qed.

Lemma lru_keys_cleanup_expired now s :
  shard_inv s ->
  lru_keys (cleanup_expired now s)
  = filter (fun k => k ∉ expired_keys now (entries s)) (lru_keys s).
Proof.
  intros Hs. unfold lru_keys, cleanup_expired.
  rewrite lru_list_foldr_erase_entry by done.
  exact (@filter_fmap_snd (fun k => k ∉ expired_keys now (entries s)) _
           (lru_list s)).
Qed.

Lemma expired_keys_cleanup_expired now s :
  expired_keys now (entries (cleanup_expired now s)) = [].
Proof.
  apply elem_of_nil_inv. intros k Hin.
  apply elem_of_expired_keys in Hin as (e & Hm & He).
  apply lookup_cleanup_expired in Hm as [_ Hlt]. lia.
Qed.

Lemma entries_cleanup_expired_filter now s :
  entries (cleanup_expired now s)
  = filter (fun kv => now < expiry kv.2) (entries s).
Proof.
  apply map_eq. intros k. apply option_eq. intros e.
  rewrite lookup_cleanup_expired, map_lookup_filter_Some. done.
Qed.

Section RecencyFacts.
Context `{Host}.

(** X8.  In every shard of a cache reached by public operations, the
    expire-sweep keeps exactly the entries whose expiry lies after its
    clock read, takes the swept names out of the recency list without
    reordering the others, leaves the three counters alone, and finds
    nothing to do when run again at the same instant. *)
Theorem cleanup_expired_sweeps (ops : list cache_op) now :
  Forall
    (fun s =>
       entries (cleanup_expired now s)
       = filter (fun kv => now < expiry kv.2) (entries s)
       /\ lru_keys (cleanup_expired now s)
          = filter (fun k => k ∉ expired_keys now (entries s)) (lru_keys s)
       /\ cleanup_expired now (cleanup_expired now s) = cleanup_expired now s
       /\ shard_hits (cleanup_expired now s) = shard_hits s
       /\ misses (cleanup_expired now s) = misses s
       /\ evictions (cleanup_expired now s) = evictions s)
    (run_ops ops).
Proof.
  destruct (run_ops_ok ops) as [_ Hall].
  eapply Forall_impl; [exact Hall|]. intros s [Hinv _].
  split; [apply entries_cleanup_expired_filter|].
  split; [by apply lru_keys_cleanup_expired|].
  split; [apply cleanup_expired_nothing, expired_keys_cleanup_expired|].
  apply counters_cleanup_expired.
Qed.
End RecencyFacts.

Lemma removelast_fmap {A B} (f : A -> B) (l : list A) :
  removelast (f <$> l) = f <$> removelast l.
Proof.
  induction l as [|x [|y l] IH]; [done|done|].
  change (f <$> x :: y :: l) with (f x :: f y :: (f <$> l)).
  change (removelast (f x :: f y :: (f <$> l)))
    with (f x :: removelast (f <$> (y :: l))).
  by rewrite IH.
Qed.

Lemma lru_keys_touch_lru d s s' :
  shard_inv s -> lru_map s' = lru_map s -> lru_list s' = lru_list s ->
  lru_keys (touch_lru d s') = d :: filter (fun k => k <> d) (lru_keys s).
Proof.
  intros Hs Hm Hl. unfold lru_keys at 1. unfold touch_lru. simpl.
  rewrite Hm, Hl. f_equal.
  destruct (lru_map s !! d) as [h|] eqn:Hd.
  - by apply erase_node_keys.
  - symmetry. apply filter_all. intros k Hin ->.
    apply list_elem_of_fmap in Hin as ([h k'] & Heq & Hin).
    apply (inv_index s Hs) in Hin. simpl in Heq. congruence.
Qed.

Lemma lru_keys_length s :
  shard_inv s -> length (lru_keys s) = size (entries s).
Proof.
  intros Hs. destruct (structures_agree_of_inv s Hs) as (_ & _ & _ & Hlen & _).
  unfold lru_keys. by rewrite length_fmap.
Qed.

Lemma lru_keys_evict_lru s :
  lru_keys (evict_lru s)
  = if MAX_ENTRIES_PER_SHARD <=? Z.of_nat (size (entries s))
    then removelast (lru_keys s) else lru_keys s.
Proof.
  unfold evict_lru.
  destruct (MAX_ENTRIES_PER_SHARD <=? Z.of_nat (size (entries s))); [|done].
  unfold lru_keys. rewrite removelast_fmap.
  destruct (last (lru_list s)) as [[h o]|] eqn:Hlast; [done|].
  apply last_None in Hlast. by rewrite Hlast.
Qed.

(** The recency list after [set]: the name set, then the names that
    survive the sweep, without the least recently used one when the
    swept shard is full. *)
Lemma lru_keys_shard_set d a ttl t1 t2 s :
  shard_inv s ->
  let live := filter (fun k => k ∉ expired_keys t1 (entries s)) (lru_keys s) in
  lru_keys (shard_set d a ttl t1 t2 s)
  = d :: filter (fun k => k <> d)
           (if MAX_ENTRIES_PER_SHARD <=? Z.of_nat (length live)
            then removelast live else live).
Proof.
  intros Hs live. unfold shard_set.
  pose proof (inv_cleanup_expired t1 s Hs) as Hc.
  rewrite (lru_keys_touch_lru d (evict_lru (cleanup_expired t1 s)))
    by (try apply inv_evict_lru; done).
  rewrite lru_keys_evict_lru, <- lru_keys_length by done.
  by rewrite lru_keys_cleanup_expired.
Qed.

Lemma lru_keys_shard_get d t1 t2 s :
  shard_inv s ->
  let live := filter (fun k => k ∉ expired_keys t1 (entries s)) (lru_keys s) in
  lru_keys (shard_get d t1 t2 s).2
  = match (shard_get d t1 t2 s).1 with Some _ => [d] | None => [] end
      ++ filter (fun k => k <> d) live.
Proof.
  intros Hs live. unfold shard_get.
  pose proof (inv_cleanup_expired t1 s Hs) as Hc.
  subst live. rewrite <- lru_keys_cleanup_expired by done.
  destruct (entries (cleanup_expired t1 s) !! d) as [e|] eqn:Hd.
  - destruct (is_valid t2 e); simpl.
    + by apply lru_keys_touch_lru.
    + unfold lru_keys, count_miss. cbn [lru_list snd].
      rewrite lru_list_erase_entry by done.
      exact (@filter_fmap_snd (fun k => k <> d) _ _).
  - simpl. symmetry. apply filter_all. intros k Hin ->.
    destruct (structures_agree_of_inv _ Hc) as (Hd1 & Hd2 & _).
    assert (Hdom : d ∈ (dom (entries (cleanup_expired t1 s)) : gset string)).
    { rewrite Hd1, Hd2. by apply elem_of_list_to_set. }
    apply elem_of_dom in Hdom as [e He]. congruence.
Qed.

Lemma elem_of_lru_keys s k :
  shard_inv s -> k ∈ lru_keys s <-> is_Some (entries s !! k).
Proof.
  intros Hs. destruct (structures_agree_of_inv s Hs) as (Hd1 & Hd2 & _).
  rewrite <- elem_of_dom, Hd1, Hd2. by rewrite elem_of_list_to_set.
Qed.

Lemma removelast_keeps_head {A} (x : A) (l : list A) :
  (2 <= length (x :: l))%nat -> exists l', removelast (x :: l) = x :: l'.
Proof. destruct l; simpl; [lia|eauto]. Qed.

(** The most recently used name is not the one a [set] removes, unless
    it has expired. *)
Lemma shard_set_keeps_front d rest e d' a ttl t1 t2 s :
  shard_inv s ->
  lru_keys s = d :: rest ->
  entries s !! d = Some e -> t1 < expiry e ->
  is_Some (entries (shard_set d' a ttl t1 t2 s) !! d).
Proof.
  intros Hs Hkeys He Hlt.
  apply (elem_of_lru_keys _ _ (inv_shard_set d' a ttl t1 t2 s Hs)).
  rewrite lru_keys_shard_set by done. simpl.
  destruct (decide (d = d')) as [->|Hne]; [by left|]. right.
  apply list_elem_of_filter. split; [done|].
  rewrite Hkeys, filter_cons.
  rewrite decide_True.
  2:{ intros Hin. apply elem_of_expired_keys in Hin as (e' & He' & Hexp).
      simplify_eq. lia. }
  set (live := filter _ rest).
  destruct (MAX_ENTRIES_PER_SHARD <=? Z.of_nat (length (d :: live))) eqn:Hfull;
    [|by left].
  apply Z.leb_le in Hfull. rewrite MAX_ENTRIES_PER_SHARD_eq in Hfull.
  destruct (removelast_keeps_head d live) as [l' ->]; [lia|]. by left.
Qed.

Section RecencyClaims.
Context `{Host}.

(** X9.  In a cache reached by public operations, [set] leaves the
    recency list of its shard as: the name set, followed by the names
    that survive the sweep in their old order, less the last (least
    recently used) of them when the swept shard holds
    [MAX_ENTRIES_PER_SHARD] names. *)
Theorem cache_set_recency (ops : list cache_op) d a ttl t_sweep t_ctor :
  let i := get_shard_index d in
  let s := run_ops ops !!! i in
  let s' := cache_set d a ttl t_sweep t_ctor (run_ops ops) !!! i in
  let live := filter (fun k => k ∉ expired_keys t_sweep (entries s)) (lru_keys s) in
  lru_keys s'
  = d :: filter (fun k => k <> d)
           (if MAX_ENTRIES_PER_SHARD <=? Z.of_nat (length live)
            then removelast live else live).
Proof.
  intros i s s' live. subst s'. unfold cache_set. fold i s.
  destruct (run_ops_ok ops) as [Hlen _].
  rewrite list_lookup_total_insert_eq by (rewrite Hlen; apply get_shard_index_lt).
  apply lru_keys_shard_set.
  apply (run_ops_shard_ok ops i (get_shard_index_lt d)).
Qed.

(** X10.  In a cache reached by public operations, [get] leaves the
    recency list of its shard as the names that survive the sweep, in
    their old order, with the name asked for taken out and, on a hit,
    put at the front. *)
Theorem cache_get_recency (ops : list cache_op) d t_sweep t_valid :
  let i := get_shard_index d in
  let s := run_ops ops !!! i in
  let r := cache_get d t_sweep t_valid (run_ops ops) in
  let live := filter (fun k => k ∉ expired_keys t_sweep (entries s)) (lru_keys s) in
  lru_keys (r.2 !!! i)
  = match r.1 with Some _ => [d] | None => [] end
      ++ filter (fun k => k <> d) live.
Proof.
  intros i s r live. subst r. unfold cache_get. fold i s.
  destruct (run_ops_ok ops) as [Hlen _].
  pose proof (lru_keys_shard_get d t_sweep t_valid s
                (proj1 (run_ops_shard_ok ops i (get_shard_index_lt d)))) as Hg.
  destruct (shard_get d t_sweep t_valid s) as [res s1]. simpl in *.
  rewrite list_lookup_total_insert_eq by (rewrite Hlen; apply get_shard_index_lt).
  exact Hg.
Qed.

(** X11.  In a cache reached by public operations, a name that [get] has
    just returned is still stored after the next [set] of any name,
    provided its entry has not expired when that [set] sweeps: the
    eviction of a full shard never falls on the name read last. *)
Theorem get_hit_survives_next_set (ops : list cache_op) d t1 t2 d' a' ttl t3 t4 e :
  let c := run_ops ops in
  let i := get_shard_index d in
  is_Some (cache_get d t1 t2 c).1 ->
  entries (c !!! i) !! d = Some e ->
  t3 < expiry e ->
  let c' := cache_set d' a' ttl t3 t4 (cache_get d t1 t2 c).2 in
  is_Some (entries (c' !!! i) !! d).
Proof.
  intros c i Hhit He Hlt c'. subst c'.
  destruct (run_ops_ok ops) as [Hlen _]. fold c in Hlen.
  pose proof (run_ops_shard_ok ops i (get_shard_index_lt d)) as [Hinv _].
  fold c in Hinv.
  unfold cache_get in *. fold i in Hhit |- *.
  pose proof (lru_keys_shard_get d t1 t2 (c !!! i) Hinv) as Hkeys.
  pose proof (inv_shard_get d t1 t2 (c !!! i) Hinv) as Hinv1.
  assert (Hent : exists e1, entries (shard_get d t1 t2 (c !!! i)).2 !! d = Some e1
                            /\ expiry e1 = expiry e).
  { unfold shard_get in Hhit |- *.
    destruct (entries (cleanup_expired t1 (c !!! i)) !! d) as [e0|] eqn:Hc;
      [|by destruct Hhit].
    apply lookup_cleanup_expired in Hc as [Hc _]. simplify_eq.
    destruct (is_valid t2 e0); [|by destruct Hhit]. simpl.
    exists (hit e0). by rewrite lookup_insert_eq. }
  destruct Hent as (e1 & He1 & Hexp).
  destruct (shard_get d t1 t2 (c !!! i)) as [res s1]. simpl in *.
  destruct res as [a0|]; [|by destruct Hhit]. simpl in Hkeys.
  unfold cache_set.
  destruct (decide (get_shard_index d' = i)) as [Hi|Hne].
  - rewrite Hi, list_lookup_total_insert_eq
      by (rewrite length_insert, Hlen; apply get_shard_index_lt).
    rewrite list_lookup_total_insert_eq
      by (rewrite Hlen; apply get_shard_index_lt).
    eapply shard_set_keeps_front; eauto. lia.
  - rewrite list_lookup_total_insert_ne by done.
    rewrite list_lookup_total_insert_eq
      by (rewrite Hlen; apply get_shard_index_lt).
    eauto.
Qed.
End RecencyClaims.

Lemma get_hit_survives_next_set_witness :
  let c := @run_ops little_endian_host
             [OpSet "lru1.com" "1.1.1.1" 300 0 0;
              OpSet "lru2.com" "2.2.2.2" 300 0 0] in
  let c' := @cache_set little_endian_host "filler0.com" "192.168.1.1" 300 2 2
              (@cache_get little_endian_host "lru1.com" 1 1 c).2 in
  is_Some (entries (c' !!! 0%nat) !! "lru1.com").
Proof.
  apply (@get_hit_survives_next_set little_endian_host
           [OpSet "lru1.com" "1.1.1.1" 300 0 0;
            OpSet "lru2.com" "2.2.2.2" 300 0 0]
           "lru1.com" 1 1 "filler0.com" "192.168.1.1" 300 2 2
           (new_entry 0 "1.1.1.1" 300)).
  - vm_compute. eauto.
  - vm_compute. reflexivity.
  - vm_compute. reflexivity.
Defined.

(** ** The cache: what [get] and [set] leave alone *)

Lemma entries_evict_lru_subseteq s : entries (evict_lru s) ⊆ entries s.
Proof.
  unfold evict_lru. repeat case_match; simpl; try done.
  apply delete_subseteq.
Qed.

Lemma entries_cleanup_expired_subseteq now s :
  entries (cleanup_expired now s) ⊆ entries s.
Proof.
  apply map_subseteq_spec. intros k e Hk.
  by apply lookup_cleanup_expired in Hk as [? _].
Qed.

(** X12.  Whatever the shard, [set] and [get] of a name never change the
    entry stored under another name (they can only remove it, by sweep
    or eviction); [get] adds no name to the shard and counts no
    eviction. *)
Theorem get_set_other_names d a ttl t1 t2 s :
  delete d (entries (shard_set d a ttl t1 t2 s)) ⊆ entries s
  /\ delete d (entries (shard_get d t1 t2 s).2) ⊆ entries s
  /\ (dom (entries (shard_get d t1 t2 s).2) : gset string) ⊆ dom (entries s)
  /\ evictions (shard_get d t1 t2 s).2 = evictions s.
Proof.
  assert (Hget : forall k e, entries (shard_get d t1 t2 s).2 !! k = Some e ->
                    exists e0, entries s !! k = Some e0 /\ (k <> d -> e = e0)).
  { intros k e. unfold shard_get.
    destruct (entries (cleanup_expired t1 s) !! d) as [e0|] eqn:Hd.
    - destruct (is_valid t2 e0); simpl.
      + destruct (decide (d = k)) as [<-|Hne].
        * intros _. apply lookup_cleanup_expired in Hd as [Hd _].
          exists e0. split; [done|]. congruence.
        * rewrite lookup_insert_ne by done.
          intros [Hk _]%lookup_cleanup_expired. eauto.
      + rewrite entries_erase_entry.
        intros [_ [Hk _]%lookup_cleanup_expired]%lookup_delete_Some. eauto.
    - simpl. intros [Hk _]%lookup_cleanup_expired. eauto. }
  split; [|split; [|split]].
  - unfold shard_set. simpl. rewrite delete_insert_eq.
    etransitivity; [apply delete_subseteq|].
    etransitivity; [apply entries_evict_lru_subseteq|].
    apply entries_cleanup_expired_subseteq.
  - apply map_subseteq_spec. intros k e [Hne Hk]%lookup_delete_Some.
    destruct (Hget k e Hk) as (e0 & He0 & Heq). rewrite He0.
    f_equal. symmetry. apply Heq. congruence.
  - intros k [e Hk]%elem_of_dom. apply elem_of_dom.
    destruct (Hget k e Hk) as (e0 & He0 & _). eauto.
  - apply (counters_shard_get d t1 t2 s).
Qed.

(** ** The dispatcher: drops, accounting, serving paths *)

Lemma length_cache_get `{Host} d t1 t2 (shards : list Shard) :
  length (cache_get d t1 t2 shards).2 = length shards.
Proof.
  unfold cache_get. destruct (shard_get _ _ _ _). simpl. apply length_insert.
Qed.

Lemma length_cache_set `{Host} d a ttl t1 t2 (shards : list Shard) :
  length (cache_set d a ttl t1 t2 shards) = length shards.
Proof. unfold cache_set. apply length_insert. Qed.

Section DispatcherPaths.
Context `{Host}.

Lemma parse_dns_header_id data len header :
  parse_dns_header data len = Value (Some header) ->
  store_u16 (id header) = take 2 data.
Proof.
  unfold parse_dns_header. case_match; [discriminate|].
  destruct (read_range data 0 12) as [l|] eqn:Hr; [|discriminate].
  apply read_range_take in Hr.
  do 13 (destruct l as [|? l]; try discriminate).
  intros [= <-]. simpl. rewrite store_load_u16.
  destruct data as [|x0 [|x1 data]]; try discriminate.
  simpl in Hr. by simplify_eq.
Qed.

(** X13.  A datagram shorter than a header, a header whose question
    count is not 1, and a question that does not parse (empty name, or
    fewer than four octets left for type and class) are counted in
    [total_queries] and otherwise ignored: nothing is sent, nothing is
    looked up. *)
Theorem handle_query_silent_drop (fuel : nat) clk data len srv :
  (len < 12
   \/ exists header,
        parse_dns_header data len = Value (Some header)
        /\ (qdcount header <> 1
            \/ parse_dns_question fuel data len 12 = Value None)) ->
  handle_query fuel clk data len srv = Value (count_query srv, []).
Proof.
  intros [Hshort|(header & Hh & [Hq|Hp])]; unfold handle_query.
  - unfold parse_dns_header.
    assert (Hlt : (len <? 12) = true) by (apply Z.ltb_lt; lia).
    by rewrite Hlt.
  - rewrite Hh. apply Z.eqb_neq in Hq. by rewrite Hq.
  - rewrite Hh. destruct (qdcount header =? 1); [|done]. simpl.
    by rewrite Hp.
Qed.

(** X14.  Whenever [handle_query] returns, it has counted the query once
    in [total_queries], sent at most one datagram, left the pre-compiled
    table and the number of shards as they were, and bumped at most one
    of [cache_hits] and [local_domain_hits], by one. *)
Theorem handle_query_accounting (fuel : nat) clk data len srv srv' evs :
  handle_query fuel clk data len srv = Value (srv', evs) ->
  total_queries srv' = wrap64 (total_queries srv + 1)
  /\ precompiled srv' = precompiled srv
  /\ length (cache srv') = length (cache srv)
  /\ (length (sent_packets evs) <= 1)%nat
  /\ ((cache_hits srv' = cache_hits srv
       /\ local_domain_hits srv' = local_domain_hits srv)
      \/ (cache_hits srv' = wrap64 (cache_hits srv + 1)
          /\ local_domain_hits srv' = local_domain_hits srv)
      \/ (cache_hits srv' = cache_hits srv
          /\ local_domain_hits srv' = wrap64 (local_domain_hits srv + 1))).
Proof.
  unfold handle_query.
  destruct (parse_dns_header data len) as [[header|]| |]; try discriminate.
  2:{ intros [= <- <-]. simpl. auto 10. }
  destruct (negb (qdcount header =? 1)).
  { intros [= <- <-]. simpl. auto 10. }
  destruct (parse_dns_question fuel data len 12) as [[[question offset]|]| |];
    try discriminate.
  2:{ intros [= <- <-]. simpl. auto 10. }
  destruct (negb (qtype question =? 1)).
  { intros [= <- <-]. simpl. auto 10. }
  destruct (get_response _ _ _) as [[response|]| |]; try discriminate.
  { intros [= <- <-]. simpl. auto 10. }
  pose proof (length_cache_get (lowercase (qname question)) (t_get_sweep clk)
                (t_get_valid clk) (cache (count_query srv))) as Hlen.
  destruct (cache_get _ _ _ _) as [[cached_ip|] c]; simpl in Hlen.
  { intros [= <- <-]. simpl. auto 10. }
  destruct (resolve_upstream _) as [resolved_ip|].
  - intros [= <- <-]. simpl. rewrite length_cache_set. auto 10.
  - intros [= <- <-]. simpl. auto 10.
Qed.

(** X15.  An A question whose lower-cased name is in the pre-compiled
    table is answered with the stored packet, its first two octets
    replaced by those of the query; the hit is counted in
    [local_domain_hits], and neither the cache nor upstream is touched. *)
Theorem handle_query_local_domain (fuel : nat) clk data len srv
        header question offset response :
  parse_dns_header data len = Value (Some header) ->
  qdcount header = 1 ->
  parse_dns_question fuel data len 12 = Value (Some (question, offset)) ->
  qtype question = 1 ->
  precompiled srv !! lowercase (qname question) = Some response ->
  (2 <= length response)%nat ->
  handle_query fuel clk data len srv
  = Value (count_local_hit (count_query srv),
           [PrecompiledLookup (lowercase (qname question));
            SendTo (take 2 data ++ drop 2 response)]).
Proof.
  intros Hh Hq Hp Ht Hr Hlen. unfold handle_query.
  rewrite Hh, Hq, Hp, Ht. simpl. unfold get_response. rewrite Hr.
  destruct (Z.of_nat (length response) <? 2) eqn:Hlt;
    [apply Z.ltb_lt in Hlt; lia|].
  by rewrite (parse_dns_header_id data len header Hh).
Qed.


(** X17.  A name that is in neither the table nor the cache and that
    upstream cannot resolve is answered with the twelve-octet SERVFAIL
    reply, and the failure is not cached: afterwards the shard of the
    name holds no entry for it, and no hit is counted. *)
Theorem handle_query_upstream_failure (fuel : nat) clk data len srv
        header question offset :
  length (cache srv) = 16%nat ->
  parse_dns_header data len = Value (Some header) ->
  qdcount header = 1 ->
  parse_dns_question fuel data len 12 = Value (Some (question, offset)) ->
  qtype question = 1 ->
  let domain := lowercase (qname question) in
  precompiled srv !! domain = None ->
  (cache_get domain (t_get_sweep clk) (t_get_valid clk) (cache srv)).1 = None ->
  getaddrinfo_ipv4 domain = None ->
  exists srv1,
    handle_query fuel clk data len srv
    = Value (srv1, [PrecompiledLookup domain; CacheGet domain;
                    ResolveUpstream domain;
                    SendTo (take 2 data
                              ++ octets [129; 130; 0; 0; 0; 0; 0; 0; 0; 0])])
    /\ entries (cache srv1 !!! get_shard_index domain) !! domain = None
    /\ cache_hits srv1 = cache_hits srv
    /\ local_domain_hits srv1 = local_domain_hits srv.
Proof.
  intros Hlen Hh Hq Hp Ht domain Htab Hmiss Hup.
  unfold handle_query. rewrite Hh, Hq, Hp, Ht. simpl.
  unfold get_response. fold domain. rewrite Htab.
  unfold cache_get in *.
  pose proof (shard_get_spec domain (t_get_sweep clk) (t_get_valid clk)
                (cache srv !!! get_shard_index domain)) as [Hspec _].
  destruct (shard_get domain (t_get_sweep clk) (t_get_valid clk) _) as [r s1].
  simpl in Hmiss. subst r. destruct Hspec as [_ Hnone].
  unfold resolve_upstream. rewrite Hup.
  assert (Hpkt : build_error_response (id header) 2
                 = take 2 data ++ octets [129; 130; 0; 0; 0; 0; 0; 0; 0; 0]).
  { unfold build_error_response.
    rewrite (parse_dns_header_id data len header Hh).
    change (Z.lor 33152 2) with 33154.
    rewrite !store_u16_htons by lia. reflexivity. }
  rewrite Hpkt.
  eexists. split; [reflexivity|split; [|done]].
  - simpl. rewrite list_lookup_total_insert_eq
      by (rewrite Hlen; apply get_shard_index_lt).
    exact Hnone.
Qed.
End DispatcherPaths.

Lemma handle_query_silent_drop_witness :
  @handle_query little_endian_host 1 idle_clock (octets [18; 52; 1]) 3 fresh_server
  = Value (count_query fresh_server, []).
Proof.
  apply (@handle_query_silent_drop little_endian_host 1 idle_clock
           (octets [18; 52; 1]) 3 fresh_server).
  left. lia.
Defined.

Lemma handle_query_accounting_witness :
  exists srv' evs,
    @handle_query stub_host 3 idle_clock mixed_case_query 29 fresh_server
    = Value (srv', evs)
    /\ total_queries srv' = 1
    /\ length (sent_packets evs) = 1%nat
    /\ cache_hits srv' = 0 /\ local_domain_hits srv' = 0.
Proof.
  eexists _, _. split; [vm_compute; reflexivity|].
  match goal with |- total_queries ?s = _ /\ length (sent_packets ?e) = _ /\ _ =>
    pose proof (@handle_query_accounting stub_host 3 idle_clock
                  mixed_case_query 29 fresh_server s e
                  ltac:(vm_compute; reflexivity)) as (Hq & _ & _ & _ & _)
  end.
  split; [exact Hq|]. vm_compute. repeat split.
Defined.

Lemma handle_query_local_domain_witness :
  @handle_query stub_host 3 idle_clock mixed_case_query 29 local_server
  = Value (count_local_hit (count_query local_server),
           [PrecompiledLookup "example.com";
            SendTo (example_answer ["example"; "com"])]).
Proof.
  erewrite (@handle_query_local_domain stub_host 3 idle_clock
              mixed_case_query 29 local_server); cycle 1.
  - vm_compute. reflexivity.
  - reflexivity.
  - vm_compute. reflexivity.
  - reflexivity.
  - vm_compute. reflexivity.
  - vm_compute. lia.
  - vm_compute. reflexivity.
Defined.


Lemma handle_query_upstream_failure_witness :
  exists srv1,
    @handle_query little_endian_host 4 idle_clock example_query 33 fresh_server
    = Value (srv1, [PrecompiledLookup "www.example.com";
                    CacheGet "www.example.com";
                    ResolveUpstream "www.example.com";
                    SendTo (octets [18; 52; 129; 130; 0; 0; 0; 0; 0; 0; 0; 0])])
    /\ entries (cache srv1 !!! 0%nat) !! "www.example.com" = None.
Proof.
  destruct (@handle_query_upstream_failure little_endian_host 4 idle_clock
              example_query 33 fresh_server
              {| id := 13330; flags := 256; qdcount := 1; ancount := 0;
                 nscount := 0; arcount := 0 |}
              {| qname := "www.example.com"; qtype := 1; qclass := 1 |} 33)
    as (srv1 & H1 & H2 & _).
  - reflexivity.
  - vm_compute. reflexivity.
  - reflexivity.
  - vm_compute. reflexivity.
  - reflexivity.
  - vm_compute. reflexivity.
  - vm_compute. reflexivity.
  - reflexivity.
  - exists srv1. split; [exact H1|exact H2].
Defined.

(** ** The response-time reservoir *)

Lemma record_response_time_step {A} (t : A) (l : list A) :
  Z.of_nat (length l) <= 10000 ->
  Z.of_nat (length (record_response_time t l)) <= 10000
  /\ suffix (record_response_time t l) (l ++ [t])
  /\ last (record_response_time t l) = Some t.
Proof.
  intros Hl. unfold record_response_time.
  destruct (10000 <? Z.of_nat (length (l ++ [t]))) eqn:Hfull.
  - apply Z.ltb_lt in Hfull. rewrite length_app in Hfull. simpl in Hfull.
    split; [rewrite length_drop, length_app; simpl; lia|].
    split; [apply suffix_drop|].
    rewrite drop_app_le by lia. apply last_snoc.
  - split; [apply Z.ltb_ge in Hfull; lia|].
    split; [done|]. apply last_snoc.
Qed.

Lemma record_response_times_few {A} (xs : list A) :
  Z.of_nat (length xs) <= 10000 ->
  foldl (fun l t => record_response_time t l) [] xs = xs.
Proof.
  induction xs as [|x xs IHx] using rev_ind; [done|].
  rewrite length_app. simpl. intros Hx.
  rewrite foldl_app. simpl. rewrite IHx by lia.
  unfold record_response_time.
  destruct (10000 <? Z.of_nat (length (xs ++ [x]))) eqn:Hf; [|done].
  apply Z.ltb_lt in Hf. rewrite length_app in Hf. simpl in Hf. lia.
Qed.

(** X18.  However many response times are recorded, the reservoir never
    holds more than 10000 of them; it always ends with the newest sample
    and is a tail of the samples recorded, in order.  Up to 10000
    samples are all kept; when the 10001st arrives the 5000 oldest are
    dropped. *)
Theorem response_times_bounded {A} (samples : list A) :
  let reservoir :=
    foldl (fun l t => record_response_time t l) [] samples in
  Z.of_nat (length reservoir) <= 10000
  /\ suffix reservoir samples
  /\ last reservoir = last samples
  /\ (if Z.of_nat (length samples) <=? 10000 then reservoir = samples
      else if Z.of_nat (length samples) =? 10001
           then reservoir = drop (Z.to_nat 5000) samples else True).
Proof.
  simpl. induction samples as [|t samples IH] using rev_ind.
  - simpl. split; [lia|]. split; [done|]. split; done.
  - destruct IH as (Hlen & Hsuf & Hlast & _).
    split; [|split; [|split]].
    + rewrite foldl_app. simpl. by apply record_response_time_step.
    + rewrite foldl_app. simpl.
      etransitivity; [by apply record_response_time_step|].
      by apply suffix_app.
    + rewrite foldl_app. simpl.
      rewrite last_snoc. by apply record_response_time_step.
    + destruct (Z.of_nat (length (samples ++ [t])) <=? 10000) eqn:Hsmall.
      { apply Z.leb_le in Hsmall. by apply record_response_times_few. }
      destruct (Z.of_nat (length (samples ++ [t])) =? 10001) eqn:Hn; [|done].
      apply Z.eqb_eq in Hn. rewrite length_app in Hn. simpl in Hn.
      rewrite foldl_app. simpl.
      rewrite record_response_times_few by lia.
      unfold record_response_time.
      assert (Hf : (10000 <? Z.of_nat (length (samples ++ [t]))) = true)
        by (apply Z.ltb_lt; rewrite length_app; simpl; lia).
      by rewrite Hf.
Qed.

(** ** Lower-casing *)

Lemma tolower_idemp c : tolower (tolower c) = tolower c.
Proof.
  unfold tolower.
  destruct ((65 <=? u8 c) && (u8 c <=? 90)) eqn:Hup.
  - apply andb_true_iff in Hup as [H1%Z.leb_le H2%Z.leb_le].
    rewrite u8_octet, Z.mod_small by lia.
    assert (Hno : (65 <=? u8 c + 32) && (u8 c + 32 <=? 90) = false).
    { apply andb_false_iff. right. apply Z.leb_gt. lia. }
    by rewrite Hno.
  - by rewrite Hup.
Qed.

Lemma lowercase_app (a b : string) :
  lowercase (a +:+ b) = lowercase a +:+ lowercase b.
Proof.
  induction a as [|x a IH]; [done|].
  rewrite string_app_cons. simpl. rewrite IH. by rewrite string_app_cons.
Qed.

Lemma lowercase_dotted (labels : list string) :
  lowercase (dotted labels) = dotted (map lowercase labels).
Proof.
  induction labels as [|l ls IH]; [done|].
  simpl. rewrite !lowercase_app, IH. reflexivity.
Qed.

(** X19.  The key normalisation of the dispatcher is stable and works
    label by label: lower-casing twice is lower-casing once, the length
    of the name is kept, and the lower-cased name of a label sequence is
    the name of the lower-cased labels (dots are left alone). *)
Theorem lowercase_normalises (s : string) (labels : list string) :
  lowercase (lowercase s) = lowercase s
  /\ String.length (lowercase s) = String.length s
  /\ lowercase (join_labels labels) = join_labels (map lowercase labels).
Proof.
  split; [|split].
  - induction s as [|c s IH]; [done|]. simpl. by rewrite tolower_idemp, IH.
  - induction s as [|c s IH]; [done|]. simpl. by rewrite IH.
  - destruct labels as [|l ls]; [done|]. simpl.
    by rewrite lowercase_app, lowercase_dotted.
Qed.

(** ** The length of an encoded name *)

Lemma read_label_length (s : string) :
  let (l, r) := read_label s in
  (String.length l + String.length r <= String.length s)%nat
  /\ (r <> EmptyString ->
      (String.length l + String.length r + 1 <= String.length s)%nat).
Proof.
  induction s as [|c s IH]; simpl; [split; [lia|done]|].
  destruct (Ascii.eqb c "."); simpl; [split; lia|].
  destruct (read_label s) as [l r]. simpl. destruct IH as [IH1 IH2].
  split; [lia|]. intros Hr. specialize (IH2 Hr). lia.
Qed.

Lemma encode_labels_length (fuel : nat) : forall iss buf,
  (length (encode_labels fuel iss buf)
   <= length buf + String.length iss
      + match iss with EmptyString => 0 | _ => 1 end)%nat.
Proof.
  induction fuel as [|fuel IH]; intros iss buf; [simpl; lia|].
  destruct iss as [|c iss]; [simpl; lia|].
  assert (Hs0 : String.length (String c iss) = S (String.length iss)) by done.
  revert Hs0. generalize (String c iss) at 1 2 3 as s0. intros s0 Hs0.
  cbn [encode_labels]. rewrite (getline_nonempty s0) by lia.
  pose proof (read_label_length s0) as Hlen.
  destruct (read_label s0) as [l r]. destruct Hlen as [H1 H2].
  specialize (IH r (buf ++ octet (Z.of_nat (String.length l))
                        :: list_ascii_of_string l)).
  rewrite length_app in IH. simpl in IH.
  rewrite string_length_list in IH.
  destruct r as [|c' r].
  - simpl in *. lia.
  - specialize (H2 ltac:(discriminate)). simpl in *. lia.
Qed.

(** X20.  Whatever the name, [encode_domain_name] extends the buffer it
    is given (it never rewrites what is there) by at most the length of
    the name plus two octets, and the last octet written is the zero
    terminator. *)
Theorem encode_domain_name_extends (domain : string) (buf : list ascii) :
  exists body,
    encode_domain_name domain buf = buf ++ body ++ [octet 0]
    /\ (length body <= String.length domain + 1)%nat.
Proof.
  exists (encode_labels (S (String.length domain)) domain []).
  split.
  - unfold encode_domain_name. rewrite encode_labels_app.
    by rewrite <- app_assoc.
  - pose proof (encode_labels_length (S (String.length domain)) domain []) as Hl.
    simpl length in Hl. destruct domain; simpl in *; lia.
Qed.

(** ** The decoder on a compression pointer *)

Lemma pointer_octets (hi lo : Z) :
  0 <= hi < 64 -> 0 <= lo < 256 ->
  is_pointer (192 + hi) = true
  /\ Z.lor (Z.shiftl (Z.land (192 + hi) 63) 8) lo = hi * 256 + lo.
Proof.
  intros Hhi Hlo.
  assert (Hall : forallb (fun h : nat =>
            forallb (fun l : nat =>
              is_pointer (192 + Z.of_nat h)
              && (Z.lor (Z.shiftl (Z.land (192 + Z.of_nat h) 63) 8) (Z.of_nat l)
                  =? Z.of_nat h * 256 + Z.of_nat l))
              (seq 0 256)) (seq 0 64) = true)
    by (vm_compute; reflexivity).
  rewrite forallb_forall in Hall.
  specialize (Hall (Z.to_nat hi)). rewrite forallb_forall in Hall.
  specialize (Hall ltac:(apply in_seq; lia) (Z.to_nat lo) ltac:(apply in_seq; lia)).
  rewrite !Z2Nat.id in Hall by lia.
  apply andb_true_iff in Hall as [Hp Hv]. apply Z.eqb_eq in Hv. auto.
Qed.

Lemma parse_step_pointer data len s hi lo :
  ps_jumped s = false ->
  0 <= ps_offset s -> ps_offset s + 2 <= len -> len < 2 ^ 63 ->
  0 <= hi < 64 -> 0 <= lo < 256 ->
  read data (ps_offset s) = Some (octet (192 + hi)) ->
  read data (ps_offset s + 1) = Some (octet lo) ->
  exists s1,
    parse_step data len s = Next s1
    /\ ps_offset s1 = hi * 256 + lo
    /\ ps_result s1 = ps_result s
    /\ ps_jumped s1 = true
    /\ ps_original_offset s1 = ps_offset s + 2.
Proof.
  intros Hj Ho Hfit Hlen Hhi Hlo Hr0 Hr1. unfold parse_step.
  assert (Hlt : (ps_offset s <? len) = true) by (apply Z.ltb_lt; lia).
  rewrite Hlt, Hr0.
  assert (Hu : u8 (octet (192 + hi)) = 192 + hi)
    by (rewrite u8_octet; apply Z.mod_small; lia).
  assert (Hu1 : u8 (octet lo) = lo)
    by (rewrite u8_octet; apply Z.mod_small; lia).
  rewrite Hu.
  assert (Hz : (192 + hi =? 0) = false) by (apply Z.eqb_neq; lia).
  destruct (pointer_octets hi lo Hhi Hlo) as [Hp Hv].
  rewrite Hz, Hp, (wrap64_small (ps_offset s + 1)) by lia.
  rewrite Hr1, Hu1, Hv. eexists. split; [reflexivity|].
  unfold mark_jump. simpl. rewrite Hj. simpl.
  rewrite wrap64_small by lia. auto.
Qed.

Lemma parse_loop_terminator data len s (fuel : nat) :
  ps_offset s < len ->
  read data (ps_offset s) = Some (octet 0) ->
  exists s1,
    parse_loop (S fuel) data len s = Returned LoopExit (ps_result s) s1.
Proof.
  intros Hlt Hr. rewrite parse_loop_S. unfold parse_step.
  assert (Hb : (ps_offset s <? len) = true) by (apply Z.ltb_lt; lia).
  rewrite Hb, Hr. unfold leave_loop. simpl. eauto.
Qed.

(** X21.  A compression pointer whose target is an uncompressed name
    earlier in the packet decodes to that name, and the cursor ends
    right after the two pointer octets. *)
Theorem parse_domain_name_follows_pointer
    (pre mid post : list ascii) (labels : list string) (hi lo len : Z)
    (fuel : nat) :
  Forall plain_label labels ->
  0 <= hi < 64 -> 0 <= lo < 256 ->
  Z.of_nat (length pre) = hi * 256 + lo ->
  Z.of_nat (length (pre ++ wire_name labels ++ mid)) + 2 <= len ->
  len < 2 ^ 63 ->
  (length labels + 2 <= fuel)%nat ->
  exists s,
    parse_domain_name fuel
      (pre ++ wire_name labels ++ mid ++ [octet (192 + hi); octet lo] ++ post)
      len (Z.of_nat (length (pre ++ wire_name labels ++ mid)))
    = Returned LoopExit (join_labels labels) s
    /\ ps_offset s = Z.of_nat (length (pre ++ wire_name labels ++ mid)) + 2.
Proof.
  intros Hp Hhi Hlo Htarget Hfit Hlen Hfuel.
  set (data := pre ++ wire_name labels ++ mid
                 ++ [octet (192 + hi); octet lo] ++ post).
  set (p := Z.of_nat (length (pre ++ wire_name labels ++ mid))) in *.
  assert (Hd0 : data = (pre ++ wire_name labels ++ mid)
                         ++ octet (192 + hi) :: (octet lo :: post))
    by (unfold data; rewrite <- !app_assoc; reflexivity).
  assert (Hd1 : data = ((pre ++ wire_name labels ++ mid) ++ [octet (192 + hi)])
                         ++ octet lo :: post)
    by (unfold data; rewrite <- !app_assoc; reflexivity).
  destruct (parse_step_pointer data len (parse_init p) hi lo)
    as (s1 & Hs1 & Ho1 & Hr1 & Hj1 & Hoo1); simpl; try lia; try reflexivity.
  { rewrite Hd0. apply read_middle. }
  { rewrite Hd1. replace (p + 1)
      with (Z.of_nat (length ((pre ++ wire_name labels ++ mid)
                                ++ [octet (192 + hi)])))
      by (rewrite (length_app _ [_]); simpl; lia).
    apply read_middle. }
  destruct (parse_loop_labels data len labels ltac:(lia) [] pre
              ([octet 0] ++ mid ++ [octet (192 + hi); octet lo] ++ post)
              (fuel - length labels - 1) s1)
    as (s2 & Hs2 & Hr2 & Ho2 & Hj2).
  { unfold data, wire_name. rewrite <- !app_assoc. reflexivity. }
  { exact Hp. }
  { constructor. }
  { lia. }
  { rewrite Hr1. reflexivity. }
  { unfold p, wire_name in Hfit. rewrite !length_app in Hfit. lia. }
  assert (Hf : (fuel - length labels - 1 = S (fuel - length labels - 2))%nat)
    by lia.
  rewrite Hf in Hs2.
  destruct (parse_loop_terminator data len s2 (fuel - length labels - 2))
    as (s3 & Hs3).
  { rewrite Ho2. unfold p, wire_name in Hfit. rewrite !length_app in Hfit.
    simpl in Hfit. lia. }
  { rewrite Ho2, <- length_app.
    replace data with ((pre ++ concat (map wire_label labels))
                         ++ octet 0 :: mid ++ [octet (192 + hi); octet lo] ++ post)
      by (unfold data, wire_name; rewrite <- !app_assoc; reflexivity).
    apply read_middle. }
  rewrite Hs3 in Hs2. simpl in Hr2. rewrite Hr2 in Hs2.
  assert (Hrun : parse_domain_name fuel data len p
                 = Returned LoopExit (join_labels labels) s3).
  { unfold parse_domain_name.
    replace fuel with (S (length labels + S (fuel - length labels - 2)))
      by lia.
    rewrite parse_loop_S, Hs1. exact Hs2. }
  exists s3. split; [exact Hrun|].
  simpl in Hoo1. rewrite <- Hoo1.
  apply (parse_loop_jumped data len (join_labels labels) s3
           (length labels + S (fuel - length labels - 2)) s1 Hj1 Hs2).
Qed.

Lemma parse_domain_name_follows_pointer_witness :
  exists s,
    parse_domain_name 4
      (query_header ++ wire_name ["example"; "com"] ++ be16 1 ++ be16 1
         ++ [octet 192; octet 12] ++ be16 1)
      33 29
    = Returned LoopExit "example.com" s
    /\ ps_offset s = 31.
Proof.
  apply (parse_domain_name_follows_pointer query_header (be16 1 ++ be16 1)
           (be16 1) ["example"; "com"] 0 12 33 4).
  - repeat constructor; simpl; lia.
  - lia.
  - lia.
  - vm_compute. reflexivity.
  - vm_compute. discriminate.
  - lia.
  - simpl. lia.
Defined.
